(** * machined core: registry, garbage collection and address resolution

    A shallow embedding of [src/machine/machined-core.c].  Machines live in
    a heap indexed by address, the three [Hashmap] indices and the GC queue
    hold addresses (never copies), and every call into the operating system
    or into code outside this file is answered by an explicit oracle that
    the caller of the model supplies. *)

From stdpp Require Import gmap strings list.
From Stdlib Require Import ZArith Lia.
From Stdlib.Strings Require Import Byte.

Local Open Scope Z_scope.

(** ** errno values (Linux, asm-generic) and exit codes *)

Module Errno.
Definition EIO : Z := 5.
Definition ENOEXEC : Z := 8.
Definition ECHILD : Z := 10.
Definition ENOMEM : Z := 12.
Definition EEXIST : Z := 17.
Definition ENONET : Z := 64.
Definition ENOTSUP : Z := 95.
Definition ESHUTDOWN : Z := 108.
End Errno.
Import Errno.

Definition EXIT_SUCCESS : Z := 0.
Definition EXIT_FAILURE : Z := 1.

(** C [true] and [false] as returned through an [int]. *)
Definition c_true : Z := 1.
Definition c_false : Z := 0.

(** A [Machine *]: an address in the heap.  [NULL] is [None] wherever a
    pointer may be absent. *)
Definition ptr := positive.

(** An out-parameter that the caller may pass as [NULL]: [store present v]
    is what the slot holds after [if (ret) *ret = v;]. *)
Definition store {A : Type} (present : bool) (v : A) : option A :=
  if present then Some v else None.

(** ** Hashmap

    Modelled from the spec: the [Hashmap] of [src/basic/hashmap.h] is not
    part of this file.  It is kept as an association list in iteration
    order, with the key comparison of its [hash_ops] as a parameter, so
    that [HASHMAP_FOREACH] has a definite order and a second entry for a
    key would be visible. *)

Section Hashmap.
Context {K : Type} (key_equal : K -> K -> bool).

Fixpoint hashmap_get (h : list (K * ptr)) (k : K) : option ptr :=
  match h with
  | [] => None
  | (k', v) :: t => if key_equal k k' then Some v else hashmap_get t k
  end.

(** [hashmap_put]: 1 when added, 0 when the very same entry exists,
    [-EEXIST] when the key is bound to something else, [-ENOMEM] when the
    table cannot grow. *)
Definition hashmap_put (oom : bool) (h : list (K * ptr)) (k : K) (v : ptr)
  : Z * list (K * ptr) :=
  match hashmap_get h k with
  | Some v' => if decide (v' = v) then (0, h) else (- EEXIST, h)
  | None => if oom then (- ENOMEM, h) else (1, h ++ [(k, v)])
  end.

(** [hashmap_remove_value]: drop the entry of [k] only if it is bound to
    [v]. *)
Fixpoint hashmap_remove_value (h : list (K * ptr)) (k : K) (v : ptr)
  : list (K * ptr) :=
  match h with
  | [] => []
  | (k', v') :: t =>
      if key_equal k k'
      then (if decide (v' = v) then t else h)
      else (k', v') :: hashmap_remove_value t k v
  end.

(** Number of entries stored under [k]. *)
Definition hashmap_count (h : list (K * ptr)) (k : K) : nat :=
  length (filter (fun e => key_equal k e.1 = true) h).

(** No two entries share a key. *)
Fixpoint hashmap_wf (h : list (K * ptr)) : Prop :=
  match h with
  | [] => True
  | (k, _) :: t => hashmap_get t k = None /\ hashmap_wf t
  end.
End Hashmap.

(** ** Machines *)

Inductive MachineClass :=
| MACHINE_HOST
| MACHINE_CONTAINER
| MACHINE_VM
| _MACHINE_CLASS_INVALID.

Inductive MachineState :=
| MACHINE_OPENING
| MACHINE_RUNNING
| MACHINE_CLOSING.

#[global] Instance MachineClass_eq_dec : EqDecision MachineClass.
Proof. solve_decision. Defined.
#[global] Instance MachineState_eq_dec : EqDecision MachineState.
Proof. solve_decision. Defined.

(** [PidRef]: a PID with the fingerprint that tells a recycled PID from
    the original process ([None] when only the raw PID is known). *)
Record PidRef := mkPidRef {
  pid : Z;
  start_time : option Z;
}.

Definition PIDREF_NULL : PidRef := mkPidRef 0 None.
Definition PIDREF_MAKE_FROM_PID (p : Z) : PidRef := mkPidRef p None.
Definition pidref_is_set (r : PidRef) : bool := 0 <? pid r.

Definition pid_is_valid (p : Z) : bool := 0 <? p.

(** [uid_t] and [gid_t] are 32-bit unsigned; the two reserved values are
    the 32-bit and the 16-bit [-1]. *)
Definition UID_INVALID : Z := 4294967295.
Definition GID_INVALID : Z := 4294967295.
Definition uid_is_valid (u : Z) : bool :=
  negb (u =? 4294967295) && negb (u =? 65535).
Definition gid_is_valid (g : Z) : bool := uid_is_valid g.

Record Machine := mkMachine {
  name : string;
  class : MachineClass;
  leader : PidRef;
  unit : option string;
  state : MachineState;
  in_gc_queue : bool;
  uid_shift : Z;
  uid_range : Z;
  gid_shift : Z;
  gid_range : Z;
  (** outstanding external references (jobs, units, operations) *)
  n_ref : nat;
}.

Definition set_in_gc_queue (b : bool) (x : Machine) : Machine :=
  mkMachine (name x) (class x) (leader x) (unit x) (state x) b
            (uid_shift x) (uid_range x) (gid_shift x) (gid_range x)
            (n_ref x).

Definition set_state_refs (s : MachineState) (n : nat) (x : Machine) : Machine :=
  mkMachine (name x) (class x) (leader x) (unit x) s (in_gc_queue x)
            (uid_shift x) (uid_range x) (gid_shift x) (gid_range x)
            n.

(** ** The deferred event source of the GC task *)

Inductive event_handler := OnDeferredGc.

Definition SD_EVENT_OFF : Z := 0.
Definition SD_EVENT_ON : Z := 1.
Definition SD_EVENT_ONESHOT : Z := -1.
Definition SD_EVENT_PRIORITY_NORMAL : Z := 0.
Definition SD_EVENT_PRIORITY_IDLE : Z := 100.

Record sd_event_source := mkSource {
  callback : event_handler;
  enabled : Z;
  priority : Z;
  description : option string;
}.

(** ** Manager *)

Record Manager := mkManager {
  heap : gmap ptr Machine;
  machines : list (string * ptr);
  machines_by_leader : list (PidRef * ptr);
  machines_by_unit : list (string * ptr);
  machine_gc_queue : list ptr;
  deferred_gc_event_source : option sd_event_source;
}.

Definition set_heap (h : gmap ptr Machine) (m : Manager) : Manager :=
  mkManager h (machines m) (machines_by_leader m) (machines_by_unit m)
            (machine_gc_queue m) (deferred_gc_event_source m).

Definition set_machines (x : list (string * ptr)) (m : Manager) : Manager :=
  mkManager (heap m) x (machines_by_leader m) (machines_by_unit m)
            (machine_gc_queue m) (deferred_gc_event_source m).

Definition set_machines_by_leader (x : list (PidRef * ptr)) (m : Manager) : Manager :=
  mkManager (heap m) (machines m) x (machines_by_unit m)
            (machine_gc_queue m) (deferred_gc_event_source m).

Definition set_machines_by_unit (x : list (string * ptr)) (m : Manager) : Manager :=
  mkManager (heap m) (machines m) (machines_by_leader m) x
            (machine_gc_queue m) (deferred_gc_event_source m).

Definition set_machine_gc_queue (q : list ptr) (m : Manager) : Manager :=
  mkManager (heap m) (machines m) (machines_by_leader m) (machines_by_unit m)
            q (deferred_gc_event_source m).

Definition set_deferred_gc_event_source (s : option sd_event_source) (m : Manager)
  : Manager :=
  mkManager (heap m) (machines m) (machines_by_leader m) (machines_by_unit m)
            (machine_gc_queue m) s.

(** Key comparison of the name and unit indices ([string_hash_ops]). *)
Definition streq (a b : string) : bool := bool_decide (a = b).

(** Key comparison of the leader index ([pidref_hash_ops]).  Modelled from
    the spec: two handles are equal when both fields match. *)
Definition pidref_equal (a b : PidRef) : bool :=
  (pid a =? pid b) && bool_decide (start_time a = start_time b).

(** ** Calls that leave this file, as recorded in the trace of a run *)

Inductive sys_call :=
| CallCgPidGetUnit (p : Z)
| CallLocalAddresses
| CallInSameNamespace
| CallNamespaceOpen
| CallSocketpair
| CallNamespaceFork
| CallWritev
| CallRecvmsg
| CallWaitForTerminate.

#[global] Instance sys_call_eq_dec : EqDecision sys_call.
Proof. solve_decision. Defined.

(** ** manager_get_machine_by_pid

    [cg_pid_get_unit] answers with its return value and, when that is not
    negative, the unit name.  [None] is the failed [assert]; [*ret] is
    always written. *)

Definition manager_get_machine_by_pid
    (cg_pid_get_unit : Z -> Z * string) (m : Manager) (p : Z)
  : option (Z * option ptr * list sys_call) :=
  if negb (pid_is_valid p) then None
  else
    let mm := hashmap_get pidref_equal (machines_by_leader m) (PIDREF_MAKE_FROM_PID p) in
    let '(mm, calls) :=
      match mm with
      | Some x => (Some x, [])
      | None =>
          let '(r, u) := cg_pid_get_unit p in
          ((if 0 <=? r then hashmap_get streq (machines_by_unit m) u else None),
           [CallCgPidGetUnit p])
      end in
    match mm with
    | None => Some (0, None, calls)
    | Some x => Some (1, Some x, calls)
    end.

(** ** Machine construction, linking and destruction

    Modelled from the spec: [machine_new], [machine_link] and
    [machine_free] live in [machine.c], which is not part of this file.
    A new Machine starts in state Opening with the class it is given, no
    leader, no unit and no references; linking inserts it into the name
    index (leader and unit are indexed once they are known); freeing
    removes the Machine from the queue and from every index it is in, and
    releases it. *)

Definition machine_new (oom : bool) (c : MachineClass) (nm : string)
    (h : gmap ptr Machine) : Z * option ptr * gmap ptr Machine :=
  if oom then (- ENOMEM, None, h)
  else
    let p := fresh (dom h) in
    (0, Some p,
     <[p := mkMachine nm c PIDREF_NULL None MACHINE_OPENING false 0 0 0 0 0%nat]> h).

Definition machine_link (oom : bool) (m : Manager) (p : ptr) : option (Z * Manager) :=
  x ← heap m !! p;
  let '(r, idx) := hashmap_put streq oom (machines m) (name x) p in
  if r <? 0 then Some (r, m)
  else Some (0, set_machines idx m).

Definition machine_free (m : Manager) (p : ptr) : option Manager :=
  x ← heap m !! p;
  let m := if in_gc_queue x
           then set_machine_gc_queue (filter (fun q => q <> p) (machine_gc_queue m)) m
           else m in
  let m := set_machines (hashmap_remove_value streq (machines m) (name x) p) m in
  let m := match unit x with
           | Some u => set_machines_by_unit
                         (hashmap_remove_value streq (machines_by_unit m) u p) m
           | None => m
           end in
  let m := if pidref_is_set (leader x)
           then set_machines_by_leader
                  (hashmap_remove_value pidref_equal (machines_by_leader m) (leader x) p) m
           else m in
  Some (set_heap (delete p (heap m)) m).

(** ** manager_add_machine

    [oom_new] and [oom_link] say whether the allocation inside
    [machine_new], respectively the insertion inside [machine_link], runs
    out of memory.  [want_ret] is [ret != NULL]. *)

Definition manager_add_machine (oom_new oom_link : bool)
    (m : Manager) (nm : string) (want_ret : bool)
  : option (Z * option ptr * Manager) :=
  match hashmap_get streq (machines m) nm with
  | Some machine => Some (0, store want_ret machine, m)
  | None =>
      let '(r, machine, h) :=
        machine_new oom_new _MACHINE_CLASS_INVALID nm (heap m) in
      if r <? 0 then Some (r, None, m)
      else
        machine ← machine;
        '(r, m1) ← machine_link oom_link (set_heap h m) machine;
        if r <? 0
        then m2 ← machine_free m1 machine; Some (r, None, m2)
        else Some (0, store want_ret machine, m1)
  end.

(** ** manager_find_machine_for_uid, manager_find_machine_for_gid

    [owns] stands for [machine_owns_uid] (or [machine_owns_gid]): it
    answers with its return value and the converted id.  The two functions
    have the same loop; [find_machine_loop] is that loop over the entries
    of the name index in iteration order, answering with the return value
    and, on a hit, the machine and the converted id. *)

Fixpoint find_machine_loop (owns : Machine -> Z -> Z * Z)
    (h : gmap ptr Machine) (id : Z) (l : list (string * ptr))
  : option (Z * option (ptr * Z)) :=
  match l with
  | [] => Some (c_false, None)
  | (_, machine) :: t =>
      x ← h !! machine;
      let '(r, converted) := owns x id in
      if r <? 0 then Some (r, None)
      else if negb (r =? 0) then Some (c_true, Some (machine, converted))
      else find_machine_loop owns h id t
  end.

Record find_result := mkFind {
  find_ret : Z;
  (** [*ret_machine]: not written, written [NULL], or written a machine *)
  find_machine : option (option ptr);
  find_internal : option Z;
}.

Definition manager_find_machine_for_uid (machine_owns_uid : Machine -> Z -> Z * Z)
    (m : Manager) (uid : Z) (want_machine want_internal : bool)
  : option find_result :=
  if negb (uid_is_valid uid) then None
  else
    res ← find_machine_loop machine_owns_uid (heap m) uid (machines m);
    match res with
    | (r, Some (machine, converted)) =>
        Some (mkFind r (store want_machine (Some machine)) (store want_internal converted))
    | (r, None) =>
        if r <? 0 then Some (mkFind r None None)
        else Some (mkFind r (store want_machine None) (store want_internal UID_INVALID))
    end.

Definition manager_find_machine_for_gid (machine_owns_gid : Machine -> Z -> Z * Z)
    (m : Manager) (gid : Z) (want_machine want_internal : bool)
  : option find_result :=
  if negb (gid_is_valid gid) then None
  else
    res ← find_machine_loop machine_owns_gid (heap m) gid (machines m);
    match res with
    | (r, Some (machine, converted)) =>
        Some (mkFind r (store want_machine (Some machine)) (store want_internal converted))
    | (r, None) =>
        if r <? 0 then Some (mkFind r None None)
        else Some (mkFind r (store want_machine None) (store want_internal GID_INVALID))
    end.

(** Modelled from the spec: [machine_owns_uid] and [machine_owns_gid] live
    in [machine.c].  A host id belongs to the machine when it falls inside
    the machine's range; it is translated by the stored shift. *)

Definition range_owns (shift range id : Z) : Z * Z :=
  if (shift <=? id) && (id <? shift + range)
  then (c_true, id - shift)
  else (c_false, UID_INVALID).

Definition machine_owns_uid (x : Machine) (uid : Z) : Z * Z :=
  range_owns (uid_shift x) (uid_range x) uid.

Definition machine_owns_gid (x : Machine) (gid : Z) : Z * Z :=
  range_owns (gid_shift x) (gid_range x) gid.

(** The return value of the ownership test on the machine at [p]. *)
Definition owns_ret (owns : Machine -> Z -> Z * Z) (m : Manager) (id : Z) (p : ptr)
  : option Z :=
  x ← heap m !! p; Some (owns x id).1.

Definition owns_converted (owns : Machine -> Z -> Z * Z) (m : Manager) (id : Z) (p : ptr)
  : option Z :=
  x ← heap m !! p; Some (owns x id).2.

(** ** Garbage collection *)

(** Modelled from the spec: [machine_may_gc] lives in [machine.c].  A
    Machine may be collected iff it has no outstanding external references
    and either the caller allows dropping machines that have not started
    or the Machine has progressed past Opening. *)
Definition machine_may_gc (x : Machine) (drop_not_started : bool) : bool :=
  bool_decide (n_ref x = 0%nat) &&
  (drop_not_started || negb (bool_decide (state x = MACHINE_OPENING))).

Definition machine_get_state (x : Machine) : MachineState := state x.

(** Modelled from the spec: [machine_stop] lives in [machine.c].  The stop
    attempt moves the Machine through its lifecycle and may change its
    reference state; what it does to a given Machine is the parameter
    [stop_outcome] (the new state and the new number of references). *)
Definition machine_stop (stop_outcome : Machine -> MachineState * nat)
    (x : Machine) : Machine :=
  set_state_refs (stop_outcome x).1 (stop_outcome x).2 x.

(** What a drain did, in order. *)
Inductive gc_event :=
| GcStop (machine : ptr)
| GcFinalize (machine : ptr)
| GcFree (machine : ptr).

#[global] Instance gc_event_eq_dec : EqDecision gc_event.
Proof. solve_decision. Defined.

Definition gc_event_machine (e : gc_event) : ptr :=
  match e with GcStop p | GcFinalize p | GcFree p => p end.

(** Modelled from the spec: [machine_finalize] lives in [machine.c].  It
    releases what the Machine holds outside the registry (namespace
    handles, scope bookkeeping); the registry itself is left to
    [machine_free]. *)
Definition machine_finalize (m : Manager) (machine : ptr) : Manager := m.

Section GC.
Variable stop_outcome : Machine -> MachineState * nat.

(** The body of the [while] loop of [manager_gc], for the machine just
    popped.  [None]: the popped pointer is dangling. *)
Definition manager_gc_body (drop_not_started : bool) (m : Manager) (machine : ptr)
  : option (Manager * list gc_event) :=
  x ← heap m !! machine;
  let x := set_in_gc_queue false x in
  let '(x, ev) :=
    if machine_may_gc x drop_not_started &&
       negb (bool_decide (machine_get_state x = MACHINE_CLOSING))
    then (machine_stop stop_outcome x, [GcStop machine])
    else (x, []) in
  let m := set_heap (<[machine := x]> (heap m)) m in
  if machine_may_gc x drop_not_started
  then
    m ← machine_free (machine_finalize m machine) machine;
    Some (m, ev ++ [GcFinalize machine; GcFree machine])
  else Some (m, ev).

(** [while ((machine = LIST_POP(gc_queue, m->machine_gc_queue)))]: each
    round reads the queue from the manager.  [None] with no fuel left. *)
Fixpoint manager_gc_loop (fuel : nat) (drop_not_started : bool) (m : Manager)
  : option (Manager * list gc_event) :=
  match fuel with
  | O => None
  | S fuel =>
      match machine_gc_queue m with
      | [] => Some (m, [])
      | machine :: rest =>
          '(m, ev) ← manager_gc_body drop_not_started
                       (set_machine_gc_queue rest m) machine;
          '(m, ev') ← manager_gc_loop fuel drop_not_started m;
          Some (m, ev ++ ev')
      end
  end.

Definition manager_gc (m : Manager) (drop_not_started : bool)
  : option (Manager * list gc_event) :=
  manager_gc_loop (S (length (machine_gc_queue m))) drop_not_started m.

Definition on_deferred_gc (userdata : Manager)
  : option (Manager * list gc_event) * Z :=
  (manager_gc userdata true, 0).

(** The event loop runs the handler a source was registered with. *)
Definition run_handler (h : event_handler) (userdata : Manager)
  : option (Manager * list gc_event) * Z :=
  match h with
  | OnDeferredGc => on_deferred_gc userdata
  end.
End GC.

(** Every binding of a key to the Machine at [q] in the three indices of
    [m] is still there in [m']. *)
Definition index_keeps (q : ptr) (m m' : Manager) : Prop :=
  (forall k, hashmap_get streq (machines m) k = Some q ->
             hashmap_get streq (machines m') k = Some q) /\
  (forall k, hashmap_get pidref_equal (machines_by_leader m) k = Some q ->
             hashmap_get pidref_equal (machines_by_leader m') k = Some q) /\
  (forall k, hashmap_get streq (machines_by_unit m) k = Some q ->
             hashmap_get streq (machines_by_unit m') k = Some q).

(** What a drain does to one queued Machine [x] at address [machine],
    read off [manager_gc_body]: the Machine after its flag is cleared and
    the stop attempt made ([gc_decide]), whether it survives ([gc_fate]:
    [None] when it is freed), and the events of that round. *)
Section GCFate.
Variable stop_outcome : Machine -> MachineState * nat.

Definition gc_stops (drop_not_started : bool) (x : Machine) : bool :=
  machine_may_gc (set_in_gc_queue false x) drop_not_started &&
  negb (bool_decide (machine_get_state (set_in_gc_queue false x) = MACHINE_CLOSING)).

Definition gc_decide (drop_not_started : bool) (x : Machine) : Machine :=
  if gc_stops drop_not_started x
  then machine_stop stop_outcome (set_in_gc_queue false x)
  else set_in_gc_queue false x.

Definition gc_fate (drop_not_started : bool) (x : Machine) : option Machine :=
  if machine_may_gc (gc_decide drop_not_started x) drop_not_started
  then None
  else Some (gc_decide drop_not_started x).

Definition gc_events_of (drop_not_started : bool) (x : Machine) (machine : ptr)
  : list gc_event :=
  (if gc_stops drop_not_started x then [GcStop machine] else []) ++
  (if machine_may_gc (gc_decide drop_not_started x) drop_not_started
   then [GcFinalize machine; GcFree machine] else []).
(** What a whole drain establishes, from the manager [m] it starts in. *)
Definition gc_post (drop : bool) (m m' : Manager) (ev : list gc_event) : Prop :=
  machine_gc_queue m' = [] /\
  deferred_gc_event_source m' = deferred_gc_event_source m /\
  (forall q, q ∉ machine_gc_queue m -> heap m' !! q = heap m !! q) /\
  (forall q x, q ∈ machine_gc_queue m -> heap m !! q = Some x ->
               heap m' !! q = gc_fate drop x) /\
  (forall e, e ∈ ev <->
             exists q x, q ∈ machine_gc_queue m /\ heap m !! q = Some x /\
                         e ∈ gc_events_of drop x q) /\
  (forall q, is_Some (heap m' !! q) -> index_keeps q m m').
End GCFate.

(** ** manager_enqueue_gc

    [r_enable], [r_defer], [r_priority] and [r_description] are the
    return values of [sd_event_source_set_enabled], [sd_event_add_defer],
    [sd_event_source_set_priority] and [sd_event_source_set_description].
    A new deferred source is created enabled once, at normal priority and
    without a description; the priority and the description are set only
    when the respective call succeeds (the result of the last one is
    discarded by the caller).  Warnings are not modelled. *)

Definition manager_enqueue_gc (r_enable r_defer r_priority r_description : Z)
    (m : Manager) : Manager :=
  match deferred_gc_event_source m with
  | Some s =>
      if r_enable <? 0 then m
      else set_deferred_gc_event_source
             (Some (mkSource (callback s) SD_EVENT_ONESHOT (priority s) (description s))) m
  | None =>
      if r_defer <? 0 then m
      else
        let prio := if r_priority <? 0 then SD_EVENT_PRIORITY_NORMAL
                    else SD_EVENT_PRIORITY_IDLE in
        let descr := if r_description <? 0 then None
                     else Some "deferred-gc"%string in
        set_deferred_gc_event_source
          (Some (mkSource OnDeferredGc SD_EVENT_ONESHOT prio descr)) m
  end.

(** Modelled from the spec: [machine_add_to_gc_queue] lives in
    [machine.c].  Enqueueing is a no-op for a Machine already queued;
    otherwise it marks the Machine, appends it to the queue and arms the
    deferred task. *)
Definition machine_add_to_gc_queue (r_enable r_defer r_priority r_description : Z)
    (m : Manager) (machine : ptr) : option Manager :=
  x ← heap m !! machine;
  if in_gc_queue x then Some m
  else
    Some (manager_enqueue_gc r_enable r_defer r_priority r_description
            (set_machine_gc_queue (machine_gc_queue m ++ [machine])
               (set_heap (<[machine := set_in_gc_queue true x]> (heap m)) m))).

(** Registry invariant of the queue: no Machine is queued twice and every
    queued pointer is live. *)
Definition gc_queue_wf (m : Manager) : Prop :=
  NoDup (machine_gc_queue m) /\
  forall p, p ∈ machine_gc_queue m -> is_Some (heap m !! p).

(** ** Address resolution *)

Definition AF_UNSPEC : Z := 0.
Definition AF_INET : Z := 2.
Definition AF_INET6 : Z := 10.

(** [sizeof(family)]: the family tag is an [int]. *)
Definition sizeof_family : Z := 4.

Record local_address := mkLocalAddress {
  ifindex : Z;
  scope : Z;
  family : Z;
  address : list Byte.byte;
}.

(** A 32-bit two's-complement [int] out of an unbounded value, as the cast
    [(int) n_list] produces it. *)
Definition to_int (v : Z) : Z :=
  let w := v mod 4294967296 in
  if w <? 2147483648 then w else w - 4294967296.

Definition byte_val (b : Byte.byte) : Z := Z.of_N (Byte.to_N b).

(** The family tag travels as the four bytes of the worker's [int], least
    significant first. *)
Definition decode_family (d : list Byte.byte) : Z :=
  match d with
  | b0 :: b1 :: b2 :: b3 :: _ =>
      to_int (byte_val b0 + 256 * byte_val b1 + 65536 * byte_val b2
              + 16777216 * byte_val b3)
  | _ => 0
  end.

Definition byte_of (v : Z) : Byte.byte :=
  match Byte.of_N (Z.to_N (v mod 256)) with
  | Some b => b
  | None => Byte.x00
  end.

Definition encode_family (f : Z) : list Byte.byte :=
  let w := f mod 4294967296 in
  [byte_of w; byte_of (w / 256); byte_of (w / 65536); byte_of (w / 16777216)].

(** What one [recvmsg_safe] on the parent's end yields: a failure with its
    errno, or a datagram whose length is the return value, its first
    [sizeof(family)] bytes landing in [family] and the rest in [in_addr]. *)
Inductive recv_result :=
| RecvError (errno : positive)
| RecvData (data : list Byte.byte).

Inductive local_addresses_result :=
| LocalAddressesError (errno : positive)
| LocalAddressesOk (l : list local_address).

(** Modelled from the spec: [add_local_address] lives in
    [local-addresses.c].  It appends one entry to the list, or fails when
    the list cannot grow. *)
Definition add_local_address (oom : bool) (list_ : list local_address)
    (ifindex scope family : Z) (addr : list Byte.byte) : Z * list local_address :=
  if oom then (- ENOMEM, list_)
  else (1, list_ ++ [mkLocalAddress ifindex scope family addr]).

(** How the receive loop is left: by [return] with a value, or by [break]
    with the list built so far ([list_] stands for the source's [list]). *)
Inductive loop_exit :=
| LoopReturn (r : Z)
| LoopBreak (list_ : list local_address).

(** The answers of everything [machine_get_addresses] calls. *)
Record world := mkWorld {
  w_local_addresses : local_addresses_result;
  w_in_same_namespace : Z;
  w_namespace_open : Z;
  (** [None]: [socketpair] succeeded; otherwise its errno *)
  w_socketpair : option positive;
  (** negative: failure; zero: we are the worker; positive: the parent *)
  w_namespace_fork : Z;
  (** return value of the i-th [writev] of the worker *)
  w_writev : nat -> Z;
  (** what the parent receives, in order; once the list is exhausted the
      channel is closed and a receive yields zero bytes *)
  w_recv : list recv_result;
  (** whether growing a list of that many entries runs out of memory *)
  w_oom : nat -> bool;
  w_wait : Z;
}.

(** How a call ends: it returns to the caller, or (in the worker) the
    process exits after the datagrams it has written. *)
Inductive outcome :=
| Returned (ret : Z) (ret_addresses : option (list local_address))
           (reterr_errno : option Z)
| Exited (status : Z) (sent : list (list Byte.byte)).

Section Addresses.
(** [FAMILY_ADDRESS_SIZE] is a macro of [in-addr-util.h]. *)
Variable FAMILY_ADDRESS_SIZE : Z -> Z.

(** The [for (;;)] loop of the parent, with the trace of its calls. *)
Fixpoint receive_loop (oom : nat -> bool) (events : list recv_result)
    (list_ : list local_address) : loop_exit * list sys_call :=
  match events with
  | [] => (LoopBreak list_, [CallRecvmsg])
  | RecvError e :: _ => (LoopReturn (- Z.pos e), [CallRecvmsg])
  | RecvData d :: rest =>
      let n := Z.of_nat (length d) in
      if n <? sizeof_family then (LoopBreak list_, [CallRecvmsg])
      else
        let family := decode_family d in
        if negb (n =? sizeof_family + FAMILY_ADDRESS_SIZE family)
        then (LoopReturn (- EIO), [CallRecvmsg])
        else
          let in_addr := drop (Z.to_nat sizeof_family) d in
          let '(r, list_) :=
            add_local_address (oom (length list_)) list_ 0 0 family in_addr in
          if r <? 0 then (LoopReturn r, [CallRecvmsg])
          else
            let '(e, calls) := receive_loop oom rest list_ in
            (e, CallRecvmsg :: calls)
  end.

(** The [for] loop of the worker over the addresses it enumerated:
    the exit status, the datagrams written and the trace. *)
Fixpoint worker_loop (writev : nat -> Z) (i : nat) (l : list local_address)
  : Z * list (list Byte.byte) * list sys_call :=
  match l with
  | [] => (EXIT_SUCCESS, [], [])
  | a :: rest =>
      if writev i <? 0 then (EXIT_FAILURE, [], [CallWritev])
      else
        let record :=
          encode_family (family a) ++
          take (Z.to_nat (FAMILY_ADDRESS_SIZE (family a))) (address a) in
        let '(status, sent, calls) := worker_loop writev (S i) rest in
        (status, record :: sent, CallWritev :: calls)
  end.

Definition machine_get_addresses (w : world) (machine : Machine)
  : outcome * list sys_call :=
  match class machine with
  | MACHINE_HOST =>
      match w_local_addresses w with
      | LocalAddressesError e => (Returned (- Z.pos e) None None, [CallLocalAddresses])
      | LocalAddressesOk addresses =>
          (Returned (Z.of_nat (length addresses)) (Some addresses) None,
           [CallLocalAddresses])
      end
  | MACHINE_CONTAINER =>
      let r := w_in_same_namespace w in
      if r <? 0 then (Returned r None None, [CallInSameNamespace])
      else if 0 <? r then (Returned (- ENONET) None (Some r), [CallInSameNamespace])
      else
        let r := w_namespace_open w in
        if r <? 0
        then (Returned r None None, [CallInSameNamespace; CallNamespaceOpen])
        else
          match w_socketpair w with
          | Some e =>
              (Returned (- Z.pos e) None None,
               [CallInSameNamespace; CallNamespaceOpen; CallSocketpair])
          | None =>
              let pre := [CallInSameNamespace; CallNamespaceOpen; CallSocketpair;
                          CallNamespaceFork] in
              let r := w_namespace_fork w in
              if r <? 0 then (Returned (- ENOEXEC) None (Some r), pre)
              else if r =? 0 then
                match w_local_addresses w with
                | LocalAddressesError _ =>
                    (Exited EXIT_FAILURE [], pre ++ [CallLocalAddresses])
                | LocalAddressesOk addresses =>
                    let '(status, sent, calls) :=
                      worker_loop (w_writev w) 0 addresses in
                    (Exited status sent, pre ++ CallLocalAddresses :: calls)
                end
              else
                match receive_loop (w_oom w) (w_recv w) [] with
                | (LoopReturn n, calls) => (Returned n None None, pre ++ calls)
                | (LoopBreak list_, calls) =>
                    let r := w_wait w in
                    let calls := pre ++ calls ++ [CallWaitForTerminate] in
                    if r <? 0 then (Returned (- ECHILD) None (Some r), calls)
                    else if negb (r =? EXIT_SUCCESS)
                    then (Returned (- ESHUTDOWN) None None, calls)
                    else (Returned (to_int (Z.of_nat (length list_))) (Some list_) None,
                          calls)
                end
          end
  | _ => (Returned (- ENOTSUP) None None, [])
  end.
End Addresses.

(** A datagram that is one whole record for its family, and the entry the
    parent makes of it. *)
Definition record_ok (FAMILY_ADDRESS_SIZE : Z -> Z) (d : list Byte.byte) : Prop :=
  sizeof_family <= Z.of_nat (length d) /\
  Z.of_nat (length d) = sizeof_family + FAMILY_ADDRESS_SIZE (decode_family d).

Definition record_entry (d : list Byte.byte) : local_address :=
  mkLocalAddress 0 0 (decode_family d) (drop (Z.to_nat sizeof_family) d).

(** An entry that holds exactly as many address bytes as its family has. *)
Definition entry_whole (FAMILY_ADDRESS_SIZE : Z -> Z) (a : local_address) : Prop :=
  Z.of_nat (length (address a)) = FAMILY_ADDRESS_SIZE (family a).

(** The run reaches the parent's receive loop: the machine is a container
    with a network namespace of its own, the namespace could be opened,
    the channel created and the worker forked. *)
Definition reaches_receive_loop (w : world) (machine : Machine) : Prop :=
  class machine = MACHINE_CONTAINER /\
  w_in_same_namespace w = 0 /\
  0 <= w_namespace_open w /\
  w_socketpair w = None /\
  0 < w_namespace_fork w.

(** Modelled from the spec: the address length of a family, 4 for IPv4 and
    16 for IPv6 (the source takes it from the macro
    [FAMILY_ADDRESS_SIZE]); the spec names no other family. *)
Definition family_address_size (f : Z) : Z :=
  if f =? AF_INET then 4 else if f =? AF_INET6 then 16 else 0.

(** ** Sample data used by the examples below *)

Definition manager_empty : Manager := mkManager ∅ [] [] [] [] None.

Definition machine_alpha : Machine :=
  mkMachine "alpha" MACHINE_CONTAINER (mkPidRef 100 None) (Some "alpha.scope"%string)
            MACHINE_RUNNING false 100000 65536 100000 65536 0%nat.

Definition machine_beta : Machine :=
  mkMachine "beta" MACHINE_CONTAINER (mkPidRef 200 None) (Some "beta.scope"%string)
            MACHINE_RUNNING false 200000 65536 300000 65536 0%nat.

Definition manager_two : Manager :=
  mkManager (<[1%positive := machine_alpha]> (<[2%positive := machine_beta]> ∅))
            [("alpha"%string, 1%positive); ("beta"%string, 2%positive)]
            [(mkPidRef 100 None, 1%positive); (mkPidRef 200 None, 2%positive)]
            [("alpha.scope"%string, 1%positive); ("beta.scope"%string, 2%positive)]
            [] None.

(** Sample answers of [cg_pid_get_unit]: PID 150 runs inside
    [beta.scope], every other PID cannot be resolved ([-ENODATA]). *)
Definition cg_sample (p : Z) : Z * string :=
  if p =? 150 then (0, "beta.scope"%string) else (-61, ""%string).

(** A translation that fails ([-EINVAL]) on the machine named beta. *)
Definition owns_failing (x : Machine) (id : Z) : Z * Z :=
  if bool_decide (name x = "beta"%string) then (-22, 0) else machine_owns_uid x id.

(** A container still being set up, unreferenced and queued for GC. *)
Definition machine_opening : Machine :=
  mkMachine "gamma" MACHINE_CONTAINER (mkPidRef 300 None) None
            MACHINE_OPENING true 0 0 0 0 0%nat.

Definition manager_opening : Manager :=
  mkManager (<[1%positive := machine_opening]> ∅)
            [("gamma"%string, 1%positive)]
            [(mkPidRef 300 None, 1%positive)]
            []
            [1%positive] None.

(** A stop that leaves a stop job behind, which references the Machine
    ("the stop probably made this referenced again"), and one that leaves
    nothing behind. *)
Definition stop_rereferences (x : Machine) : MachineState * nat :=
  (MACHINE_CLOSING, 1%nat).

Definition stop_quiet (x : Machine) : MachineState * nat :=
  (MACHINE_CLOSING, 0%nat).

Definition machine_container : Machine :=
  mkMachine "delta" MACHINE_CONTAINER (mkPidRef 400 None) None
            MACHINE_RUNNING false 0 0 0 0 0%nat.

(** The record of [(AF_INET, 10.0.0.5)], and the same record cut short. *)
Definition record_10_0_0_5 : list Byte.byte :=
  [x02; x00; x00; x00; x0a; x00; x00; x05].

Definition record_truncated : list Byte.byte :=
  [x02; x00; x00; x00; x0a; x00].

Definition record_short : list Byte.byte := [x02; x00; x00].

(** A world in which every call succeeds, the worker is forked and exits
    with [status], and the parent receives [events]. *)
Definition world_of (events : list recv_result) (status : Z) : world :=
  mkWorld (LocalAddressesOk []) 0 0 None 4242 (fun _ => 0) events
          (fun _ => false) status.

(** A container that shares the caller's network namespace. *)
Definition world_same_netns : world :=
  mkWorld (LocalAddressesOk []) 1 0 None 4242 (fun _ => 0) []
          (fun _ => false) 0.

(** ** Derived descriptions used by the further properties *)

(** The datagram the worker writes for one address: the family tag
    followed by the address bytes of that family. *)
Definition worker_record (FAMILY_ADDRESS_SIZE : Z -> Z) (a : local_address)
  : list Byte.byte :=
  encode_family (family a) ++
  take (Z.to_nat (FAMILY_ADDRESS_SIZE (family a))) (address a).

(** The entry the parent makes of the worker's record of [a]: interface
    index and scope are not transmitted. *)
Definition received_entry (FAMILY_ADDRESS_SIZE : Z -> Z) (a : local_address)
  : local_address :=
  mkLocalAddress 0 0 (family a)
                 (take (Z.to_nat (FAMILY_ADDRESS_SIZE (family a))) (address a)).

(** An address the worker can put on the wire whole: its family fits an
    [int] and its buffer holds the bytes of its family. *)
Definition sendable (FAMILY_ADDRESS_SIZE : Z -> Z) (a : local_address) : Prop :=
  -2147483648 <= family a < 2147483648 /\
  0 <= FAMILY_ADDRESS_SIZE (family a) <= Z.of_nat (length (address a)).

(** A receive that ends the loop whatever precedes it: a failure, or a
    datagram that is not one whole record. *)
Definition terminating (FAMILY_ADDRESS_SIZE : Z -> Z) (e : recv_result) : Prop :=
  match e with
  | RecvError _ => True
  | RecvData d => ~ record_ok FAMILY_ADDRESS_SIZE d
  end.

(** The run is the forked worker's. *)
Definition runs_worker (w : world) (machine : Machine) : Prop :=
  class machine = MACHINE_CONTAINER /\
  w_in_same_namespace w = 0 /\
  0 <= w_namespace_open w /\
  w_socketpair w = None /\
  w_namespace_fork w = 0.

(** The events of a whole drain, machine by machine in queue order. *)
Definition gc_events_all (stop_outcome : Machine -> MachineState * nat)
    (drop_not_started : bool) (m : Manager) : list gc_event :=
  flat_map (fun p => match heap m !! p with
                     | Some x => gc_events_of stop_outcome drop_not_started x p
                     | None => []
                     end)
           (machine_gc_queue m).

(** The queue flag of every live Machine agrees with the queue. *)
Definition gc_flags_consistent (m : Manager) : Prop :=
  forall p x, heap m !! p = Some x -> in_gc_queue x = true -> p ∈ machine_gc_queue m.

(** Sample addresses as the worker enumerates them. *)
Definition address_v4 : local_address :=
  mkLocalAddress 2 253 AF_INET
    [x0a; x00; x00; x05; x00; x00; x00; x00; x00; x00; x00; x00; x00; x00; x00; x00].

Definition address_v6 : local_address :=
  mkLocalAddress 3 0 AF_INET6
    [xfe; x80; x00; x00; x00; x00; x00; x00; x00; x00; x00; x00; x00; x00; x00; x01].

(** The worker's world: every call succeeds and [fork] answers zero. *)
Definition world_worker (l : list local_address) (writev : nat -> Z) : world :=
  mkWorld (LocalAddressesOk l) 0 0 None 0 writev [] (fun _ => false) 0.

(** A manager with two queued Machines (a Closing one, then an Opening
    one) and a running Machine that is not queued. *)
Definition machine_closing : Machine :=
  mkMachine "epsilon" MACHINE_CONTAINER (mkPidRef 500 None) None
            MACHINE_CLOSING true 0 0 0 0 0%nat.

Definition machine_running : Machine :=
  mkMachine "zeta" MACHINE_CONTAINER (mkPidRef 600 None) None
            MACHINE_RUNNING false 0 0 0 0 1%nat.

Definition manager_queued : Manager :=
  mkManager (<[1%positive := machine_opening]>
               (<[2%positive := machine_closing]>
                  (<[3%positive := machine_running]> ∅)))
            [("gamma"%string, 1%positive); ("epsilon"%string, 2%positive);
             ("zeta"%string, 3%positive)]
            [(mkPidRef 300 None, 1%positive); (mkPidRef 500 None, 2%positive);
             (mkPidRef 600 None, 3%positive)]
            []
            [2%positive; 1%positive] None.

(** Registry invariant of the name index: no name is entered twice, and
    every entry points to a live Machine that carries the name. *)
Definition names_consistent (m : Manager) : Prop :=
  hashmap_wf streq (machines m) /\
  forall k p, (k, p) ∈ machines m ->
              exists x, heap m !! p = Some x /\ name x = k.

(** * Properties *)

(** ** Hashmap facts *)

Section HashmapFacts.
Context {K : Type} (key_equal : K -> K -> bool).

Lemma hashmap_remove_value_absent (h : list (K * ptr)) k v :
  hashmap_get key_equal h k = None ->
  hashmap_remove_value key_equal h k v = h.
Proof.
  induction h as [|[k' v'] t IH]; simpl; [done|].
  destruct (key_equal k k'); [done|].
  intros Hg. by rewrite IH.
Qed.

(** Removing the entry of one machine never disturbs the binding of a
    key to another machine. *)
Lemma hashmap_remove_value_other (h : list (K * ptr)) k k' v p :
  p <> v ->
  hashmap_get key_equal h k = Some p ->
  hashmap_get key_equal (hashmap_remove_value key_equal h k' v) k = Some p.
Proof.
  intros Hne. induction h as [|[k0 v0] t IH]; simpl; [done|].
  destruct (key_equal k' k0) eqn:E'.
  - destruct (decide (v0 = v)) as [->|]; simpl.
    + destruct (key_equal k k0); [congruence | done].
    + done.
  - simpl. destruct (key_equal k k0); [done | exact IH].
Qed.

Lemma hashmap_count_absent (h : list (K * ptr)) k :
  hashmap_get key_equal h k = None -> hashmap_count key_equal h k = 0%nat.
Proof.
  unfold hashmap_count.
  induction h as [|[k' v'] t IH]; simpl; [done|].
  rewrite filter_cons. simpl.
  destruct (key_equal k k') eqn:E; [done|].
  intros Hg. destruct (decide (false = true)); [done | auto].
Qed.

Lemma hashmap_get_snoc_other (h : list (K * ptr)) k k' v :
  key_equal k k' = false ->
  hashmap_get key_equal (h ++ [(k', v)]) k = hashmap_get key_equal h k.
Proof.
  intros Hk. induction h as [|[k0 v0] t IH]; simpl.
  - by rewrite Hk.
  - by rewrite IH.
Qed.

Lemma hashmap_get_snoc_new (h : list (K * ptr)) k v :
  key_equal k k = true ->
  hashmap_get key_equal h k = None ->
  hashmap_get key_equal (h ++ [(k, v)]) k = Some v.
Proof.
  intros Hk. induction h as [|[k0 v0] t IH]; simpl.
  - by rewrite Hk.
  - destruct (key_equal k k0); [done | exact IH].
Qed.
End HashmapFacts.

Lemma streq_refl a : streq a a = true.
Proof. unfold streq. by apply bool_decide_eq_true. Qed.

Lemma streq_sym a b : streq a b = streq b a.
Proof. unfold streq. apply bool_decide_ext. split; congruence. Qed.

Lemma hashmap_count_present (h : list (string * ptr)) k v :
  hashmap_wf streq h ->
  hashmap_get streq h k = Some v ->
  hashmap_count streq h k = 1%nat.
Proof.
  induction h as [|[k' v'] t IH]; simpl; [done|].
  intros [Hfresh Hwf] Hg. unfold hashmap_count in *.
  rewrite filter_cons. simpl.
  destruct (streq k k') eqn:E.
  - apply bool_decide_eq_true in E. subst k'.
    destruct (decide (true = true)); [|done]. simpl.
    f_equal. by apply (hashmap_count_absent streq).
  - destruct (decide (false = true)); [done|]. by apply IH.
Qed.

Lemma hashmap_wf_snoc (h : list (string * ptr)) k v :
  hashmap_wf streq h ->
  hashmap_get streq h k = None ->
  hashmap_wf streq (h ++ [(k, v)]).
Proof.
  induction h as [|[k' v'] t IH]; simpl; [done|].
  intros [Hfresh Hwf]. destruct (streq k k') eqn:E; [done|].
  intros Hg. split; [|by apply IH].
  rewrite hashmap_get_snoc_other; [done|]. by rewrite streq_sym.
Qed.

(** ** The registry *)

Lemma machine_new_fresh c nm (h : gmap ptr Machine) r p h' :
  machine_new false c nm h = (r, Some p, h') ->
  h !! p = None /\ r = 0 /\
  h' = <[p := mkMachine nm c PIDREF_NULL None MACHINE_OPENING false 0 0 0 0 0%nat]> h.
Proof.
  unfold machine_new. intros [= <- <- <-].
  split; [|done]. apply not_elem_of_dom, is_fresh.
Qed.

Lemma manager_eta m :
  mkManager (heap m) (machines m) (machines_by_leader m) (machines_by_unit m)
            (machine_gc_queue m) (deferred_gc_event_source m) = m.
Proof. by destruct m. Qed.

(** A call for a name that is not registered, spelled out by the two
    allocation outcomes. *)
Lemma manager_add_machine_new m nm oom_new oom_link want_ret :
  hashmap_get streq (machines m) nm = None ->
  manager_add_machine oom_new oom_link m nm want_ret =
  if oom_new || oom_link then Some (- ENOMEM, None, m)
  else
    let p := fresh (dom (heap m)) in
    Some (0, store want_ret p,
          set_heap (<[p := mkMachine nm _MACHINE_CLASS_INVALID PIDREF_NULL None
                            MACHINE_OPENING false 0 0 0 0 0%nat]> (heap m))
                   (set_machines (machines m ++ [(nm, p)]) m)).
Proof.
  intros Hget. unfold manager_add_machine. rewrite Hget.
  destruct oom_new; simpl; [done|].
  assert (Hfresh : heap m !! fresh (dom (heap m)) = None)
    by apply not_elem_of_dom, is_fresh.
  unfold machine_link. simpl. rewrite lookup_insert_eq. simpl.
  unfold hashmap_put. rewrite Hget.
  destruct oom_link; simpl; [|done].
  unfold machine_free. simpl. rewrite lookup_insert_eq. simpl.
  rewrite hashmap_remove_value_absent by done.
  rewrite delete_insert_id by done.
  unfold set_heap, set_machines. simpl. by rewrite manager_eta.
Qed.

Lemma manager_add_machine_existing m nm machine oom_new oom_link want_ret :
  hashmap_get streq (machines m) nm = Some machine ->
  manager_add_machine oom_new oom_link m nm want_ret
  = Some (0, store want_ret machine, m).
Proof. intros Hget. unfold manager_add_machine. by rewrite Hget. Qed.

(** C5. [manager_add_machine] is get-or-create.  For a name that is
    already registered it returns the existing Machine and leaves the
    manager (heap, indices, queue) exactly as it was, and the name has one
    entry.  Whenever a call succeeds, a second call with the same name,
    whatever its allocation outcomes, returns the same Machine, changes
    nothing, and the name has exactly one entry. *)
Theorem manager_add_machine_idempotent (m : Manager) (nm : string) :
  hashmap_wf streq (machines m) ->
  (forall machine oom_new oom_link want_ret,
      hashmap_get streq (machines m) nm = Some machine ->
      manager_add_machine oom_new oom_link m nm want_ret
        = Some (0, store want_ret machine, m) /\
      hashmap_count streq (machines m) nm = 1%nat) /\
  (forall oom_new oom_link oom_new' oom_link' r machine m1,
      manager_add_machine oom_new oom_link m nm true = Some (r, Some machine, m1) ->
      r = 0 /\
      manager_add_machine oom_new' oom_link' m1 nm true = Some (0, Some machine, m1) /\
      hashmap_get streq (machines m1) nm = Some machine /\
      hashmap_count streq (machines m1) nm = 1%nat /\
      hashmap_wf streq (machines m1)).
Proof.
  intros Hwf.
  split.
  - intros machine ? ? ? Hget. split; [by apply manager_add_machine_existing|].
    by apply hashmap_count_present with machine.
  - intros oom_new oom_link oom_new' oom_link' r machine m1 Hcall.
    destruct (hashmap_get streq (machines m) nm) as [p|] eqn:Hget.
    + rewrite (manager_add_machine_existing m nm p) in Hcall by done. simpl in Hcall.
      injection Hcall as <- <- <-.
      repeat split; try done.
      * by apply (manager_add_machine_existing m nm p _ _ true).
      * by apply hashmap_count_present with p.
    + rewrite manager_add_machine_new in Hcall by done.
      destruct (oom_new || oom_link); [done|].
      simpl in Hcall. injection Hcall as <- <- <-.
      assert (Hnew : hashmap_get streq (machines m ++ [(nm, fresh (dom (heap m)))]) nm
                     = Some (fresh (dom (heap m)))).
      { apply hashmap_get_snoc_new; [apply streq_refl | done]. }
      assert (Hwf' : hashmap_wf streq (machines m ++ [(nm, fresh (dom (heap m)))])).
      { by apply hashmap_wf_snoc. }
      repeat split; try done.
      * unfold manager_add_machine. simpl. by rewrite Hnew.
      * simpl. by apply hashmap_count_present with (fresh (dom (heap m))).
Qed.

Lemma manager_add_machine_idempotent_witness :
  hashmap_wf streq (machines manager_empty) /\
  manager_add_machine false false manager_empty "alpha" true
    = Some (0, Some 1%positive,
            set_heap (<[1%positive := mkMachine "alpha" _MACHINE_CLASS_INVALID PIDREF_NULL
                                         None MACHINE_OPENING false 0 0 0 0 0%nat]> ∅)
              (set_machines [("alpha"%string, 1%positive)] manager_empty)) /\
  forall m1,
    m1 = set_heap (<[1%positive := mkMachine "alpha" _MACHINE_CLASS_INVALID PIDREF_NULL
                                         None MACHINE_OPENING false 0 0 0 0 0%nat]> ∅)
              (set_machines [("alpha"%string, 1%positive)] manager_empty) ->
    manager_add_machine true true m1 "alpha" true = Some (0, Some 1%positive, m1) /\
    hashmap_count streq (machines m1) "alpha" = 1%nat.
Proof.
  assert (Hwf : hashmap_wf streq (machines manager_empty)) by exact I.
  assert (Hcall : manager_add_machine false false manager_empty "alpha" true
    = Some (0, Some 1%positive,
            set_heap (<[1%positive := mkMachine "alpha" _MACHINE_CLASS_INVALID PIDREF_NULL
                                         None MACHINE_OPENING false 0 0 0 0 0%nat]> ∅)
              (set_machines [("alpha"%string, 1%positive)] manager_empty)))
    by reflexivity.
  split; [exact Hwf|]. split; [exact Hcall|].
  intros m1 ->.
  destruct (manager_add_machine_idempotent manager_empty "alpha" Hwf) as [_ H2].
  destruct (H2 false false true true _ _ _ Hcall) as (_ & Hsecond & _ & Hcount & _).
  split; [exact Hsecond | exact Hcount].
Defined.

(** C6. [manager_add_machine] is atomic on failure.  For a name that is
    not registered, a failure to construct the Machine, or to link it,
    makes the call return that (negative) error with no Machine, and the
    manager is exactly what it was before the call: the heap holds no new
    Machine and the three indices and the queue are untouched.  A negative
    return for such a name always leaves the manager unchanged. *)
Theorem manager_add_machine_atomic_on_failure
    (m : Manager) (nm : string) (oom_new oom_link want_ret : bool) :
  hashmap_get streq (machines m) nm = None ->
  (oom_new = true ->
   manager_add_machine oom_new oom_link m nm want_ret = Some (- ENOMEM, None, m)) /\
  (oom_link = true ->
   manager_add_machine oom_new oom_link m nm want_ret = Some (- ENOMEM, None, m)) /\
  (forall r ret m',
      manager_add_machine oom_new oom_link m nm want_ret = Some (r, ret, m') ->
      r < 0 ->
      ret = None /\ m' = m /\ (oom_new = true \/ oom_link = true)) /\
  is_Some (manager_add_machine oom_new oom_link m nm want_ret).
Proof.
  intros Hget. rewrite manager_add_machine_new by done.
  repeat split.
  - by intros ->.
  - intros ->. by rewrite orb_true_r.
  - destruct (oom_new || oom_link); simpl in *; [congruence|].
    injection H as <- <- <-. lia.
  - destruct (oom_new || oom_link); simpl in *; [congruence|].
    injection H as <- <- <-. lia.
  - destruct oom_new, oom_link; simpl in *; auto.
    injection H as <- <- <-. lia.
  - destruct (oom_new || oom_link); simpl; eauto.
Qed.

Lemma manager_add_machine_atomic_on_failure_witness :
  manager_add_machine true false manager_empty "alpha" true
    = Some (- ENOMEM, None, manager_empty) /\
  manager_add_machine false true manager_empty "alpha" true
    = Some (- ENOMEM, None, manager_empty).
Proof.
  split.
  - exact (proj1 (manager_add_machine_atomic_on_failure
                    manager_empty "alpha" true false true eq_refl) eq_refl).
  - exact (proj1 (proj2 (manager_add_machine_atomic_on_failure
                           manager_empty "alpha" false true true eq_refl)) eq_refl).
Defined.

(** C7. PID-to-Machine lookup.  The leader index is consulted first, and
    on a hit the unit name is never derived; on a miss the unit name is
    derived once and the unit index consulted.  A failed derivation is
    swallowed: the call succeeds with an absent result.  When neither
    index resolves, the result is not-found as well.  No error is ever
    returned. *)
Theorem manager_get_machine_by_pid_lookup
    (cg_pid_get_unit : Z -> Z * string) (m : Manager) (p : Z) :
  pid_is_valid p = true ->
  let by_leader :=
    hashmap_get pidref_equal (machines_by_leader m) (PIDREF_MAKE_FROM_PID p) in
  let call := manager_get_machine_by_pid cg_pid_get_unit m p in
  (forall mm, by_leader = Some mm -> call = Some (1, Some mm, [])) /\
  (by_leader = None -> (cg_pid_get_unit p).1 < 0 ->
   call = Some (0, None, [CallCgPidGetUnit p])) /\
  (by_leader = None -> 0 <= (cg_pid_get_unit p).1 ->
   call = match hashmap_get streq (machines_by_unit m) (cg_pid_get_unit p).2 with
          | Some mm => Some (1, Some mm, [CallCgPidGetUnit p])
          | None => Some (0, None, [CallCgPidGetUnit p])
          end) /\
  (exists r ret calls, call = Some (r, ret, calls) /\ (r = 0 \/ r = 1) /\
                       (r = 0 <-> ret = None)).
Proof.
  intros Hvalid by_leader call. subst by_leader call.
  unfold manager_get_machine_by_pid. rewrite Hvalid. simpl.
  destruct (hashmap_get pidref_equal (machines_by_leader m) (PIDREF_MAKE_FROM_PID p))
    as [mm|] eqn:Hl.
  - split; [by intros ? [= <-]|]. split; [done|]. split; [done|].
    exists 1, (Some mm), []. split; [done|]. split; [by right|]. split; done.
  - destruct (cg_pid_get_unit p) as [r u] eqn:Hcg. simpl.
    split; [done|].
    destruct (0 <=? r) eqn:Hr.
    + apply Z.leb_le in Hr.
      split; [intros; lia|].
      destruct (hashmap_get streq (machines_by_unit m) u) as [mm|] eqn:Hu.
      * split; [done|].
        exists 1, (Some mm), [CallCgPidGetUnit p].
        split; [done|]. split; [by right|]. split; done.
      * split; [done|].
        exists 0, None, [CallCgPidGetUnit p].
        split; [done|]. split; [by left|]. split; done.
    + apply Z.leb_gt in Hr.
      split; [done|]. split; [intros; lia|].
      exists 0, None, [CallCgPidGetUnit p].
      split; [done|]. split; [by left|]. split; done.
Qed.

Lemma manager_get_machine_by_pid_lookup_witness :
  manager_get_machine_by_pid cg_sample manager_two 100 = Some (1, Some 1%positive, []) /\
  manager_get_machine_by_pid cg_sample manager_two 151
    = Some (0, None, [CallCgPidGetUnit 151]) /\
  manager_get_machine_by_pid cg_sample manager_two 150
    = Some (1, Some 2%positive, [CallCgPidGetUnit 150]).
Proof.
  split; [|split].
  - exact (proj1 (manager_get_machine_by_pid_lookup cg_sample manager_two 100 eq_refl)
             1%positive eq_refl).
  - refine (proj1 (proj2
             (manager_get_machine_by_pid_lookup cg_sample manager_two 151 eq_refl)) _ _);
      [reflexivity | by vm_compute].
  - refine (proj1 (proj2 (proj2
             (manager_get_machine_by_pid_lookup cg_sample manager_two 150 eq_refl))) _ _);
      [reflexivity | by vm_compute].
Defined.

Lemma find_machine_loop_miss owns (m : Manager) id (l : list (string * ptr)) :
  (forall e, e ∈ l -> owns_ret owns m id e.2 = Some 0) ->
  find_machine_loop owns (heap m) id l = Some (c_false, None).
Proof.
  induction l as [|[k p] t IH]; intros Hall; simpl; [done|].
  assert (Hp : owns_ret owns m id p = Some 0) by (apply (Hall (k, p)); left).
  unfold owns_ret in Hp.
  destruct (heap m !! p) as [x|]; simpl in *; [|done].
  destruct (owns x id) as [r c]. simpl in Hp. injection Hp as ->. simpl.
  apply IH. intros e He. apply Hall. by right.
Qed.

Lemma find_machine_loop_first owns (m : Manager) id pre k p post r c :
  (forall e, e ∈ pre -> owns_ret owns m id e.2 = Some 0) ->
  owns_ret owns m id p = Some r ->
  owns_converted owns m id p = Some c ->
  r <> 0 ->
  find_machine_loop owns (heap m) id (pre ++ (k, p) :: post) =
  Some (if r <? 0 then (r, None) else (c_true, Some (p, c))).
Proof.
  intros Hpre Hr Hc Hnz.
  induction pre as [|[k0 p0] t IH]; simpl.
  - unfold owns_ret, owns_converted in *.
    destruct (heap m !! p) as [x|]; simpl in *; [|done].
    destruct (owns x id) as [r' c']. simpl in *.
    injection Hr as ->. injection Hc as ->.
    destruct (r <? 0); [done|].
    destruct (r =? 0) eqn:E; [apply Z.eqb_eq in E; done | done].
  - assert (Hp : owns_ret owns m id p0 = Some 0) by (apply (Hpre (k0, p0)); left).
    unfold owns_ret in Hp.
    destruct (heap m !! p0) as [x|]; simpl in *; [|done].
    destruct (owns x id) as [r' c']. simpl in Hp. injection Hp as ->. simpl.
    apply IH. intros e He. apply Hpre. by right.
Qed.

Lemma manager_find_machine_for_gid_uid :
  manager_find_machine_for_gid = manager_find_machine_for_uid.
Proof. reflexivity. Qed.

(** C8. Host UID (and GID) to Machine.  The registered machines are
    scanned in iteration order.  At the first machine whose ownership test
    answers something other than "no", the scan stops: a positive answer
    returns true with that machine and the converted id; a negative answer
    (translation failure) is returned as the error, with no output
    written.  When every machine answers "no", the call returns false with
    a [NULL] machine and the invalid-id sentinel.  The GID function does
    the same. *)
Theorem manager_find_machine_for_uid_scan
    (owns : Machine -> Z -> Z * Z) (m : Manager) (id : Z)
    (want_machine want_internal : bool) :
  uid_is_valid id = true ->
  (forall pre k p post r c,
      machines m = pre ++ (k, p) :: post ->
      (forall e, e ∈ pre -> owns_ret owns m id e.2 = Some 0) ->
      owns_ret owns m id p = Some r ->
      owns_converted owns m id p = Some c ->
      (0 < r ->
       manager_find_machine_for_uid owns m id want_machine want_internal
       = Some (mkFind c_true (store want_machine (Some p)) (store want_internal c)) /\
       manager_find_machine_for_gid owns m id want_machine want_internal
       = Some (mkFind c_true (store want_machine (Some p)) (store want_internal c))) /\
      (r < 0 ->
       manager_find_machine_for_uid owns m id want_machine want_internal
       = Some (mkFind r None None) /\
       manager_find_machine_for_gid owns m id want_machine want_internal
       = Some (mkFind r None None))) /\
  ((forall e, e ∈ machines m -> owns_ret owns m id e.2 = Some 0) ->
   manager_find_machine_for_uid owns m id want_machine want_internal
   = Some (mkFind c_false (store want_machine None) (store want_internal UID_INVALID)) /\
   manager_find_machine_for_gid owns m id want_machine want_internal
   = Some (mkFind c_false (store want_machine None) (store want_internal GID_INVALID))).
Proof.
  intros Hvalid. rewrite manager_find_machine_for_gid_uid.
  unfold manager_find_machine_for_uid. rewrite Hvalid. simpl.
  split.
  - intros pre k p post r c Hm Hpre Hr Hc.
    rewrite Hm.
    split; intros Hsign.
    + rewrite (find_machine_loop_first owns m id pre k p post r c); [|done..|lia].
      assert (E : (r <? 0) = false) by lia. by rewrite E.
    + rewrite (find_machine_loop_first owns m id pre k p post r c); [|done..|lia].
      assert (E : (r <? 0) = true) by lia. rewrite E. simpl. by rewrite E.
  - intros Hall. by rewrite find_machine_loop_miss.
Qed.

Lemma manager_find_machine_for_uid_scan_witness :
  manager_find_machine_for_uid machine_owns_uid manager_two 200005 true true
    = Some (mkFind c_true (Some (Some 2%positive)) (Some 5)) /\
  manager_find_machine_for_uid owns_failing manager_two 200005 true true
    = Some (mkFind (-22) None None) /\
  manager_find_machine_for_uid machine_owns_uid manager_two 42 true true
    = Some (mkFind c_false (Some None) (Some UID_INVALID)).
Proof.
  assert (Hpre : forall owns,
            owns_ret owns manager_two 200005 1%positive = Some 0 ->
            forall e, e ∈ [("alpha"%string, 1%positive)] ->
                 owns_ret owns manager_two 200005 e.2 = Some 0).
  { intros owns Ho e He. apply list_elem_of_singleton in He. by subst e. }
  split; [|split].
  - destruct (manager_find_machine_for_uid_scan machine_owns_uid
                manager_two 200005 true true eq_refl) as [Hfirst _].
    destruct (Hfirst [("alpha"%string, 1%positive)] "beta"%string 2%positive [] 1 5
                eq_refl (Hpre machine_owns_uid eq_refl) eq_refl eq_refl) as [Hpos _].
    apply Hpos. lia.
  - destruct (manager_find_machine_for_uid_scan owns_failing
                manager_two 200005 true true eq_refl) as [Hfirst _].
    destruct (Hfirst [("alpha"%string, 1%positive)] "beta"%string 2%positive [] (-22) 0
                eq_refl (Hpre owns_failing eq_refl) eq_refl eq_refl) as [_ Hneg].
    apply Hneg. lia.
  - destruct (manager_find_machine_for_uid_scan machine_owns_uid
                manager_two 42 true true eq_refl) as [_ Hmiss].
    apply Hmiss.
    intros e He. repeat (apply elem_of_cons in He as [->|He]); try reflexivity.
    by apply elem_of_nil in He.
Defined.

(** ** Garbage collection *)

(** Case analysis on membership in a list that is written out. *)
Ltac elem_of_cases H :=
  repeat (apply elem_of_cons in H as [?|H]); try done;
  try (by apply elem_of_nil in H).

Lemma machine_may_gc_iff x drop :
  machine_may_gc x drop = true <->
  n_ref x = 0%nat /\ (drop = true \/ state x <> MACHINE_OPENING).
Proof.
  unfold machine_may_gc.
  rewrite andb_true_iff, orb_true_iff, bool_decide_eq_true, negb_true_iff,
    bool_decide_eq_false.
  tauto.
Qed.

Lemma machine_free_spec m p x :
  heap m !! p = Some x ->
  exists m',
    machine_free m p = Some m' /\
    heap m' = delete p (heap m) /\
    (in_gc_queue x = false -> machine_gc_queue m' = machine_gc_queue m) /\
    deferred_gc_event_source m' = deferred_gc_event_source m /\
    (forall k q, q <> p ->
       hashmap_get streq (machines m) k = Some q ->
       hashmap_get streq (machines m') k = Some q) /\
    (forall k q, q <> p ->
       hashmap_get pidref_equal (machines_by_leader m) k = Some q ->
       hashmap_get pidref_equal (machines_by_leader m') k = Some q) /\
    (forall k q, q <> p ->
       hashmap_get streq (machines_by_unit m) k = Some q ->
       hashmap_get streq (machines_by_unit m') k = Some q).
Proof.
  intros Hx. unfold machine_free. rewrite Hx. simpl.
  eexists. split; [reflexivity|].
  destruct (in_gc_queue x), (unit x), (pidref_is_set (leader x));
    simpl; repeat split; try done;
    intros; repeat apply hashmap_remove_value_other; done.
Qed.

Lemma index_keeps_refl q m : index_keeps q m m.
Proof. by repeat split. Qed.

Lemma index_keeps_trans q m1 m2 m3 :
  index_keeps q m1 m2 -> index_keeps q m2 m3 -> index_keeps q m1 m3.
Proof. intros (?&?&?) (?&?&?). repeat split; auto. Qed.

Section GCFacts.
Variable stop_outcome : Machine -> MachineState * nat.

Lemma gc_decide_in_gc_queue drop x :
  in_gc_queue (gc_decide stop_outcome drop x) = false.
Proof. unfold gc_decide. by destruct (gc_stops drop x). Qed.

Lemma gc_events_of_machine drop x p e :
  e ∈ gc_events_of stop_outcome drop x p -> gc_event_machine e = p.
Proof.
  unfold gc_events_of.
  destruct (gc_stops drop x), (machine_may_gc _ drop); simpl;
    intros He; elem_of_cases He; by subst.
Qed.

(** One round of the loop on a live pointer. *)
Lemma manager_gc_body_spec drop m p x :
  heap m !! p = Some x ->
  exists m',
    manager_gc_body stop_outcome drop m p
      = Some (m', gc_events_of stop_outcome drop x p) /\
    heap m' !! p = gc_fate stop_outcome drop x /\
    (forall q, q <> p -> heap m' !! q = heap m !! q) /\
    machine_gc_queue m' = machine_gc_queue m /\
    deferred_gc_event_source m' = deferred_gc_event_source m /\
    (forall q, q <> p -> index_keeps q m m') /\
    (is_Some (gc_fate stop_outcome drop x) -> index_keeps p m m').
Proof.
  intros Hx. unfold manager_gc_body. rewrite Hx. cbn [mbind option_bind].
  unfold gc_fate, gc_events_of, gc_decide, gc_stops.
  set (x1 := set_in_gc_queue false x).
  destruct (machine_may_gc x1 drop &&
            negb (bool_decide (machine_get_state x1 = MACHINE_CLOSING))) eqn:Hstop.
  - set (x2 := machine_stop stop_outcome x1).
    destruct (machine_may_gc x2 drop) eqn:Hgc.
    + destruct (machine_free_spec
                  (machine_finalize (set_heap (<[p:=x2]> (heap m)) m) p) p x2)
        as (m' & Hfree & Hheap & Hq & Hsrc & Hn & Hl & Hu).
      { apply lookup_insert_eq. }
      rewrite Hfree. simpl. exists m'. split; [done|].
      rewrite Hheap. simpl.
      split; [apply lookup_delete_eq|].
      split; [intros q Hq'; by rewrite lookup_delete_ne, lookup_insert_ne|].
      split; [by apply Hq|]. split; [done|].
      split; [|by intros [? ?]].
      intros q Hq'. repeat split; intros k; [apply Hn | apply Hl | apply Hu]; done.
    + eexists. split; [done|]. simpl.
      split; [apply lookup_insert_eq|].
      split; [intros q Hq'; by rewrite lookup_insert_ne|].
      repeat split; done.
  - destruct (machine_may_gc x1 drop) eqn:Hgc.
    + destruct (machine_free_spec
                  (machine_finalize (set_heap (<[p:=x1]> (heap m)) m) p) p x1)
        as (m' & Hfree & Hheap & Hq & Hsrc & Hn & Hl & Hu).
      { apply lookup_insert_eq. }
      rewrite Hfree. simpl. exists m'. split; [done|].
      rewrite Hheap. simpl.
      split; [apply lookup_delete_eq|].
      split; [intros q Hq'; by rewrite lookup_delete_ne, lookup_insert_ne|].
      split; [by apply Hq|]. split; [done|].
      split; [|by intros [? ?]].
      intros q Hq'. repeat split; intros k; [apply Hn | apply Hl | apply Hu]; done.
    + eexists. split; [done|]. simpl.
      split; [apply lookup_insert_eq|].
      split; [intros q Hq'; by rewrite lookup_insert_ne|].
      repeat split; done.
Qed.

Lemma manager_gc_loop_spec drop fuel m :
  (length (machine_gc_queue m) < fuel)%nat ->
  gc_queue_wf m ->
  exists m' ev,
    manager_gc_loop stop_outcome fuel drop m = Some (m', ev) /\
    gc_post stop_outcome drop m m' ev.
Proof.
  revert m. induction fuel as [|fuel IH]; intros m Hlen [Hnd Hlive]; [lia|].
  simpl. destruct (machine_gc_queue m) as [|p rest] eqn:Hqueue.
  - exists m, []. split; [done|]. unfold gc_post. rewrite Hqueue.
    split; [done|]. split; [done|]. split; [done|].
    split; [intros q x Hq; by apply elem_of_nil in Hq|].
    split; [|intros; apply index_keeps_refl].
    intros e. split.
    + intros He. by apply elem_of_nil in He.
    + intros (q & x & Hq & _). by apply elem_of_nil in Hq.
  - apply NoDup_cons in Hnd as [Hp Hnd].
    destruct (Hlive p) as [x Hx]; [left|].
    destruct (manager_gc_body_spec drop (set_machine_gc_queue rest m) p x Hx)
      as (m1 & Hbody & Hp1 & Hother & Hq1 & Hsrc1 & Hkeep & Hkeep_p).
    rewrite Hbody. simpl in *.
    destruct (IH m1) as (m' & ev' & Hloop & Hq' & Hsrc' & Hout & Hin & Hev & Hidx).
    { rewrite Hq1. lia. }
    { split; rewrite Hq1; [done|].
      intros q Hq. rewrite Hother by (intros ->; done). apply Hlive. by right. }
    rewrite Hloop. simpl.
    exists m', (gc_events_of stop_outcome drop x p ++ ev').
    split; [done|]. rewrite Hq1 in *. unfold gc_post. rewrite Hqueue.
    assert (Hp' : heap m' !! p = gc_fate stop_outcome drop x).
    { by rewrite Hout. }
    split; [done|]. split; [congruence|].
    split; [|split; [|split]].
    + intros q Hq. apply not_elem_of_cons in Hq as [Hne Hq].
      rewrite Hout by done. by apply Hother.
    + intros q y Hq Hy. apply elem_of_cons in Hq as [->|Hq].
      * congruence.
      * assert (q <> p) by (intros ->; done).
        apply Hin; [done|]. by rewrite Hother.
    + intros e. rewrite elem_of_app, Hev. split.
      * intros [He|(q & y & Hq & Hy & He)].
        -- exists p, x. split; [left|]; done.
        -- assert (q <> p) by (intros ->; done).
           exists q, y. rewrite Hother in Hy by done. split; [by right|done].
      * intros (q & y & Hq & Hy & He). apply elem_of_cons in Hq as [->|Hq].
        -- left. congruence.
        -- assert (q <> p) by (intros ->; done).
           right. exists q, y. by rewrite Hother.
    + intros q Hq. destruct (decide (q = p)) as [->|Hne].
      * apply index_keeps_trans with m1; [|by apply Hidx].
        rewrite Hp' in Hq. by apply (index_keeps_trans _ _ _ _ (index_keeps_refl _ _)), Hkeep_p.
      * apply index_keeps_trans with m1; [by apply Hkeep | by apply Hidx].
Qed.

(** A drain of a well-formed queue always completes. *)
Lemma manager_gc_spec drop m :
  gc_queue_wf m ->
  exists m' ev, manager_gc stop_outcome m drop = Some (m', ev) /\ gc_post stop_outcome drop m m' ev.
Proof. intros Hwf. apply manager_gc_loop_spec; [lia | done]. Qed.
End GCFacts.

Lemma manager_opening_wf : gc_queue_wf manager_opening.
Proof.
  split.
  - apply NoDup_singleton.
  - intros q Hq. apply list_elem_of_singleton in Hq as ->. by eexists.
Qed.

Section GCOpening.
Variable stop_outcome : Machine -> MachineState * nat.

Lemma gc_fate_opening_keep x :
  state x = MACHINE_OPENING ->
  gc_stops false x = false /\
  gc_fate stop_outcome false x = Some (set_in_gc_queue false x).
Proof.
  intros Hs.
  assert (Hgc : machine_may_gc (set_in_gc_queue false x) false = false).
  { apply not_true_is_false. rewrite machine_may_gc_iff. simpl.
    intros [_ [?|?]]; done. }
  unfold gc_fate, gc_decide, gc_stops. rewrite Hgc. cbn [andb]. by rewrite Hgc.
Qed.

Lemma gc_fate_opening_drop x :
  state x = MACHINE_OPENING ->
  n_ref x = 0%nat ->
  n_ref (machine_stop stop_outcome (set_in_gc_queue false x)) = 0%nat ->
  gc_stops true x = true /\
  gc_fate stop_outcome true x = None.
Proof.
  intros Hs Hr Hr'.
  assert (Hstop : gc_stops true x = true).
  { unfold gc_stops. apply andb_true_iff. split.
    - apply machine_may_gc_iff. simpl. auto.
    - apply negb_true_iff, bool_decide_eq_false. unfold machine_get_state. simpl.
      congruence. }
  split; [done|].
  unfold gc_fate, gc_decide. rewrite Hstop.
  assert (Hgc : machine_may_gc (machine_stop stop_outcome (set_in_gc_queue false x)) true
                = true).
  { apply machine_may_gc_iff. auto. }
  by rewrite Hgc.
Qed.

(** A queued Machine whose second may-collect evaluation holds is
    finalized and freed by the drain. *)
Lemma manager_gc_frees drop m p x :
  gc_queue_wf m ->
  p ∈ machine_gc_queue m ->
  heap m !! p = Some x ->
  gc_fate stop_outcome drop x = None ->
  exists m' ev,
    manager_gc stop_outcome m drop = Some (m', ev) /\
    heap m' !! p = None /\
    GcFinalize p ∈ ev /\ GcFree p ∈ ev.
Proof.
  intros Hwf Hq Hx Hfate.
  destruct (manager_gc_spec stop_outcome drop m Hwf)
    as (m' & ev & Hgc & _ & _ & _ & Hin & Hev & _).
  exists m', ev. split; [done|].
  split; [by rewrite (Hin p x)|].
  assert (Hmay : machine_may_gc (gc_decide stop_outcome drop x) drop = true).
  { unfold gc_fate in Hfate. by destruct (machine_may_gc _ drop). }
  assert (Hevents : forall e, e ∈ [GcFinalize p; GcFree p] -> e ∈ ev).
  { intros e He. apply Hev. exists p, x. split; [done|]. split; [done|].
    unfold gc_events_of. rewrite Hmay. apply elem_of_app. by right. }
  split; apply Hevents.
  - left.
  - right. left.
Qed.

(** A Machine whose second may-collect evaluation fails, or that is not
    queued at all, is live after the drain and no finalize or free
    event concerns it. *)
Lemma manager_gc_keeps drop m p x :
  gc_queue_wf m ->
  heap m !! p = Some x ->
  (p ∈ machine_gc_queue m -> is_Some (gc_fate stop_outcome drop x)) ->
  exists m' ev,
    manager_gc stop_outcome m drop = Some (m', ev) /\
    heap m' !! p = Some (if decide (p ∈ machine_gc_queue m)
                         then gc_decide stop_outcome drop x else x) /\
    index_keeps p m m' /\
    machine_gc_queue m' = [] /\
    (GcFinalize p ∉ ev) /\ (GcFree p ∉ ev) /\
    (GcStop p ∈ ev -> p ∈ machine_gc_queue m /\ gc_stops drop x = true).
Proof.
  intros Hwf Hx Hfate.
  destruct (manager_gc_spec stop_outcome drop m Hwf)
    as (m' & ev & Hgc & Hq' & _ & Hout & Hin & Hev & Hidx).
  exists m', ev. split; [done|].
  assert (Hlive : heap m' !! p = Some (if decide (p ∈ machine_gc_queue m)
                                       then gc_decide stop_outcome drop x else x)).
  { destruct (decide (p ∈ machine_gc_queue m)) as [Hq|Hq].
    - rewrite (Hin p x) by done. destruct (Hfate Hq) as [y Hy].
      unfold gc_fate in *. by destruct (machine_may_gc _ drop).
    - by rewrite Hout. }
  split; [done|]. split; [apply Hidx; by rewrite Hlive|]. split; [done|].
  assert (Hno : forall e, e ∈ ev -> gc_event_machine e = p ->
                 p ∈ machine_gc_queue m /\ e ∈ gc_events_of stop_outcome drop x p).
  { intros e He Hp. apply Hev in He as (q & y & Hq & Hy & He).
    pose proof (gc_events_of_machine stop_outcome drop y q e He) as Hm.
    rewrite Hp in Hm. subst q. split; [done | congruence]. }
  assert (Hmay : p ∈ machine_gc_queue m ->
                 machine_may_gc (gc_decide stop_outcome drop x) drop = false).
  { intros Hq. destruct (Hfate Hq) as [y Hy]. unfold gc_fate in Hy.
    by destruct (machine_may_gc _ drop). }
  split; [|split].
  - intros He. destruct (Hno _ He eq_refl) as [Hq Hin'].
    unfold gc_events_of in Hin'. rewrite (Hmay Hq) in Hin'.
    destruct (gc_stops drop x); simpl in Hin'; elem_of_cases Hin'.
  - intros He. destruct (Hno _ He eq_refl) as [Hq Hin'].
    unfold gc_events_of in Hin'. rewrite (Hmay Hq) in Hin'.
    destruct (gc_stops drop x); simpl in Hin'; elem_of_cases Hin'.
  - intros He. destruct (Hno _ He eq_refl) as [Hq Hin']. split; [done|].
    unfold gc_events_of in Hin'. rewrite (Hmay Hq) in Hin'.
    destruct (gc_stops drop x); [done|]. simpl in Hin'.
    by apply elem_of_nil in Hin'.
Qed.

(** C2 (amended).  A drain with [drop_not_started = false] never stops,
    finalizes or frees a Machine in state Opening: the Machine is live
    afterwards, unchanged but for its cleared queue flag.  A drain with
    [drop_not_started = true] stops, finalizes and frees a queued Opening
    Machine that has no outstanding external references, provided the
    stop attempt the drain makes on it first leaves it unreferenced. *)
Theorem manager_gc_opening (m : Manager) (p : ptr) (x : Machine) :
  gc_queue_wf m ->
  heap m !! p = Some x ->
  state x = MACHINE_OPENING ->
  (exists m' ev,
      manager_gc stop_outcome m false = Some (m', ev) /\
      heap m' !! p = Some (if decide (p ∈ machine_gc_queue m)
                           then set_in_gc_queue false x else x) /\
      index_keeps p m m' /\
      (GcStop p ∉ ev) /\ (GcFinalize p ∉ ev) /\ (GcFree p ∉ ev)) /\
  (p ∈ machine_gc_queue m ->
   n_ref x = 0%nat ->
   n_ref (machine_stop stop_outcome (set_in_gc_queue false x)) = 0%nat ->
   exists m' ev,
     manager_gc stop_outcome m true = Some (m', ev) /\
     heap m' !! p = None /\
     GcFinalize p ∈ ev /\ GcFree p ∈ ev).
Proof.
  intros Hwf Hx Hs. split.
  - destruct (gc_fate_opening_keep x Hs) as [Hstop Hfate].
    destruct (manager_gc_keeps false m p x Hwf Hx) as
      (m' & ev & Hgc & Hlive & Hidx & _ & Hfin & Hfree & Hstop').
    { intros _. by rewrite Hfate. }
    exists m', ev. split; [done|].
    assert (Hdec : gc_decide stop_outcome false x = set_in_gc_queue false x).
    { unfold gc_decide. by rewrite Hstop. }
    rewrite Hdec in Hlive.
    split; [done|]. split; [done|]. split; [|by split].
    intros He. destruct (Hstop' He) as [_ Habs]. congruence.
  - intros Hq Hr Hr'.
    destruct (gc_fate_opening_drop x Hs Hr Hr') as [_ Hfate].
    by apply manager_gc_frees with x.
Qed.
End GCOpening.

Lemma manager_gc_opening_witness :
  (exists m' ev,
      manager_gc stop_quiet manager_opening false = Some (m', ev) /\
      heap m' !! 1%positive = Some (set_in_gc_queue false machine_opening) /\
      (GcFree 1%positive ∉ ev)) /\
  (exists m' ev,
      manager_gc stop_quiet manager_opening true = Some (m', ev) /\
      heap m' !! 1%positive = None /\
      GcFree 1%positive ∈ ev).
Proof.
  destruct (manager_gc_opening stop_quiet manager_opening 1%positive machine_opening
              manager_opening_wf eq_refl eq_refl) as [Hkeep Hdrop].
  split.
  - destruct Hkeep as (m' & ev & Hgc & Hlive & _ & _ & _ & Hfree).
    exists m', ev. repeat split; done.
  - destruct Hdrop as (m' & ev & Hgc & Hgone & _ & Hfree).
    + left.
    + reflexivity.
    + reflexivity.
    + exists m', ev. repeat split; done.
Defined.

(** C2, as stated, fails.  The Machine at address 1 is in state Opening,
    unreferenced and queued, so may-collect holds for it with
    [drop_not_started = true]; the drain stops it, the stop leaves a
    reference behind, the second may-collect evaluation fails, and the
    Machine is neither finalized nor freed. *)
Lemma manager_gc_opening_counterexample :
  gc_queue_wf manager_opening /\
  heap manager_opening !! 1%positive = Some machine_opening /\
  state machine_opening = MACHINE_OPENING /\
  n_ref machine_opening = 0%nat /\
  machine_may_gc machine_opening true = true /\
  exists m',
    manager_gc stop_rereferences manager_opening true = Some (m', [GcStop 1%positive]) /\
    heap m' !! 1%positive
      = Some (set_state_refs MACHINE_CLOSING 1 (set_in_gc_queue false machine_opening)) /\
    hashmap_get streq (machines m') "gamma" = Some 1%positive.
Proof.
  split; [exact manager_opening_wf|].
  repeat (split; [reflexivity|]).
  eexists. split; [reflexivity|]. split; reflexivity.
Qed.

Lemma set_in_gc_queue_twice b b' x :
  set_in_gc_queue b (set_in_gc_queue b' x) = set_in_gc_queue b x.
Proof. done. Qed.

Lemma manager_enqueue_gc_frame r_enable r_defer r_priority r_description m :
  heap (manager_enqueue_gc r_enable r_defer r_priority r_description m) = heap m /\
  machine_gc_queue (manager_enqueue_gc r_enable r_defer r_priority r_description m)
  = machine_gc_queue m.
Proof.
  unfold manager_enqueue_gc.
  destruct (deferred_gc_event_source m), (r_enable <? 0), (r_defer <? 0); done.
Qed.

Section GCSurvivor.
Variable stop_outcome : Machine -> MachineState * nat.

Lemma gc_fate_flag drop b x :
  gc_fate stop_outcome drop (set_in_gc_queue b x) = gc_fate stop_outcome drop x.
Proof.
  unfold gc_fate, gc_decide, gc_stops. by rewrite !set_in_gc_queue_twice.
Qed.

(** A drain of an empty queue does nothing. *)
Lemma manager_gc_idle drop m :
  machine_gc_queue m = [] -> manager_gc stop_outcome m drop = Some (m, []).
Proof. intros Hq. unfold manager_gc. rewrite Hq. simpl. by rewrite Hq. Qed.

(** C3.  A Machine popped during a drain whose second may-collect
    evaluation (after the stop attempt) does not hold is neither
    finalized nor freed: after the pass it is live in the state the stop
    attempt left it in, every index entry that named it still names it,
    and its [in_gc_queue] flag is false.  The queue is empty after the
    pass, so a further drain does not look at the Machine again; once it
    is enqueued again, the next drain decides its fate anew. *)
Theorem manager_gc_survivor (drop : bool) (m : Manager) (p : ptr) (x : Machine) :
  gc_queue_wf m ->
  p ∈ machine_gc_queue m ->
  heap m !! p = Some x ->
  machine_may_gc (gc_decide stop_outcome drop x) drop = false ->
  exists m' ev,
    manager_gc stop_outcome m drop = Some (m', ev) /\
    heap m' !! p = Some (gc_decide stop_outcome drop x) /\
    in_gc_queue (gc_decide stop_outcome drop x) = false /\
    index_keeps p m m' /\
    (GcFinalize p ∉ ev) /\ (GcFree p ∉ ev) /\
    machine_gc_queue m' = [] /\
    (forall drop', manager_gc stop_outcome m' drop' = Some (m', [])) /\
    (forall r_enable r_defer r_priority r_description drop',
        exists m2 m3 ev3,
          machine_add_to_gc_queue r_enable r_defer r_priority r_description m' p
          = Some m2 /\
          machine_gc_queue m2 = [p] /\
          manager_gc stop_outcome m2 drop' = Some (m3, ev3) /\
          heap m3 !! p = gc_fate stop_outcome drop' (gc_decide stop_outcome drop x)).
Proof.
  intros Hwf Hq Hx Hmay.
  destruct (manager_gc_keeps stop_outcome drop m p x Hwf Hx) as
    (m' & ev & Hgc & Hlive & Hidx & Hempty & Hfin & Hfree & _).
  { intros _. unfold gc_fate. rewrite Hmay. by eexists. }
  rewrite decide_True in Hlive by done.
  exists m', ev. split; [done|]. split; [done|].
  split; [apply gc_decide_in_gc_queue|].
  split; [done|]. split; [done|]. split; [done|]. split; [done|].
  split; [intros; by apply manager_gc_idle|].
  intros r_enable r_defer r_priority r_description drop'.
  unfold machine_add_to_gc_queue. rewrite Hlive. cbn [mbind option_bind].
  rewrite gc_decide_in_gc_queue.
  set (m2 := manager_enqueue_gc _ _ _ _ _).
  destruct (manager_enqueue_gc_frame r_enable r_defer r_priority r_description
              (set_machine_gc_queue (machine_gc_queue m' ++ [p])
                 (set_heap (<[p:=set_in_gc_queue true (gc_decide stop_outcome drop x)]>
                              (heap m')) m'))) as [Hheap2 Hqueue2].
  fold m2 in Hheap2, Hqueue2. simpl in Hheap2, Hqueue2. rewrite Hempty in Hqueue2.
  simpl in Hqueue2.
  assert (Hx2 : heap m2 !! p = Some (set_in_gc_queue true (gc_decide stop_outcome drop x))).
  { rewrite Hheap2. apply lookup_insert_eq. }
  destruct (manager_gc_spec stop_outcome drop' m2) as
    (m3 & ev3 & Hgc3 & _ & _ & _ & Hin3 & _).
  { split; rewrite Hqueue2; [apply NoDup_singleton|].
    intros q Hq'. apply list_elem_of_singleton in Hq' as ->. by eexists. }
  exists m2, m3, ev3. split; [done|]. split; [done|]. split; [done|].
  rewrite (Hin3 p (set_in_gc_queue true (gc_decide stop_outcome drop x)));
    [apply gc_fate_flag | rewrite Hqueue2; left | done].
Qed.

(** C4.  The handler of the deferred GC task drains the queue with
    [drop_not_started = true], whatever the manager holds; the source
    that [manager_enqueue_gc] registers carries exactly this handler and
    takes no drop argument from the enqueuer (it is created enabled once,
    at idle priority when the priority could be set, described when the
    description could be set); and so a run of the task frees a queued,
    unreferenced Opening Machine that its stop attempt leaves
    unreferenced, the very Machine that a direct drain with
    [drop_not_started = false] keeps. *)
Theorem on_deferred_gc_drops_not_started (m : Manager) :
  on_deferred_gc stop_outcome m = (manager_gc stop_outcome m true, 0) /\
  (forall h, run_handler stop_outcome h m = (manager_gc stop_outcome m true, 0)) /\
  (forall r_enable r_defer r_priority r_description,
      deferred_gc_event_source m = None ->
      0 <= r_defer ->
      deferred_gc_event_source
        (manager_enqueue_gc r_enable r_defer r_priority r_description m)
      = Some (mkSource OnDeferredGc SD_EVENT_ONESHOT
                       (if r_priority <? 0 then SD_EVENT_PRIORITY_NORMAL
                        else SD_EVENT_PRIORITY_IDLE)
                       (if r_description <? 0 then None
                        else Some "deferred-gc"%string))) /\
  (forall r_enable r_defer r_priority r_description s,
      deferred_gc_event_source m = Some s ->
      exists s',
        deferred_gc_event_source
          (manager_enqueue_gc r_enable r_defer r_priority r_description m)
        = Some s' /\
        callback s' = callback s /\ priority s' = priority s /\
        description s' = description s /\
        (0 <= r_enable -> enabled s' = SD_EVENT_ONESHOT)) /\
  (forall p x,
      gc_queue_wf m ->
      p ∈ machine_gc_queue m ->
      heap m !! p = Some x ->
      state x = MACHINE_OPENING ->
      n_ref x = 0%nat ->
      n_ref (machine_stop stop_outcome (set_in_gc_queue false x)) = 0%nat ->
      (exists m' ev,
          (on_deferred_gc stop_outcome m).1 = Some (m', ev) /\
          heap m' !! p = None /\ GcFree p ∈ ev) /\
      (exists m' ev,
          manager_gc stop_outcome m false = Some (m', ev) /\
          heap m' !! p = Some (set_in_gc_queue false x) /\ (GcFree p ∉ ev))).
Proof.
  split; [done|]. split; [by intros []|].
  split; [|split].
  - intros r_enable r_defer r_priority r_description Hsrc Hr.
    unfold manager_enqueue_gc. rewrite Hsrc.
    assert (E : (r_defer <? 0) = false) by lia. by rewrite E.
  - intros r_enable r_defer r_priority r_description s Hsrc.
    unfold manager_enqueue_gc. rewrite Hsrc.
    destruct (r_enable <? 0) eqn:E.
    + exists s. split; [done|]. split; [done|]. split; [done|]. split; [done|]. lia.
    + eexists. split; [done|]. simpl. done.
  - intros p x Hwf Hq Hx Hs Hr Hr'. split.
    + destruct (gc_fate_opening_drop stop_outcome x Hs Hr Hr') as [_ Hfate].
      destruct (manager_gc_frees stop_outcome true m p x Hwf Hq Hx Hfate)
        as (m' & ev & Hgc & Hgone & _ & Hfree).
      exists m', ev. by split.
    + destruct (gc_fate_opening_keep stop_outcome x Hs) as [Hstop Hfate].
      destruct (manager_gc_keeps stop_outcome false m p x Hwf Hx) as
        (m' & ev & Hgc & Hlive & _ & _ & _ & Hfree & _).
      { intros _. by rewrite Hfate. }
      exists m', ev. split; [done|]. split; [|done].
      rewrite decide_True in Hlive by done.
      unfold gc_decide in Hlive. by rewrite Hstop in Hlive.
Qed.
End GCSurvivor.

Lemma manager_gc_survivor_witness :
  exists m' ev,
    manager_gc stop_rereferences manager_opening true = Some (m', ev) /\
    heap m' !! 1%positive
      = Some (set_state_refs MACHINE_CLOSING 1 (set_in_gc_queue false machine_opening)) /\
    machine_gc_queue m' = [] /\
    (GcFree 1%positive ∉ ev).
Proof.
  destruct (manager_gc_survivor stop_rereferences true manager_opening 1%positive
              machine_opening manager_opening_wf) as
    (m' & ev & Hgc & Hlive & _ & _ & _ & Hfree & Hempty & _).
  - left.
  - reflexivity.
  - reflexivity.
  - exists m', ev. split; [done|]. split; [exact Hlive|]. split; done.
Defined.

Lemma on_deferred_gc_drops_not_started_witness :
  deferred_gc_event_source (manager_enqueue_gc 0 0 0 0 manager_opening)
    = Some (mkSource OnDeferredGc SD_EVENT_ONESHOT SD_EVENT_PRIORITY_IDLE
                     (Some "deferred-gc"%string)) /\
  deferred_gc_event_source (manager_enqueue_gc 0 0 (-12) (-12) manager_opening)
    = Some (mkSource OnDeferredGc SD_EVENT_ONESHOT SD_EVENT_PRIORITY_NORMAL None) /\
  (exists m' ev,
      (on_deferred_gc stop_quiet manager_opening).1 = Some (m', ev) /\
      heap m' !! 1%positive = None /\ GcFree 1%positive ∈ ev) /\
  (exists m' ev,
      manager_gc stop_quiet manager_opening false = Some (m', ev) /\
      heap m' !! 1%positive = Some (set_in_gc_queue false machine_opening) /\
      (GcFree 1%positive ∉ ev)).
Proof.
  destruct (on_deferred_gc_drops_not_started stop_quiet manager_opening)
    as (_ & _ & Hnew & _ & Hrun).
  split; [|split].
  - apply (Hnew 0 0 0 0); [reflexivity | lia].
  - apply (Hnew 0 0 (-12) (-12)); [reflexivity | lia].
  - apply (Hrun 1%positive machine_opening manager_opening_wf);
      [left | reflexivity..].
Defined.

(** ** Address resolution *)

Section AddressFacts.
Variable FAMILY_ADDRESS_SIZE : Z -> Z.

Lemma record_entry_whole d :
  record_ok FAMILY_ADDRESS_SIZE d -> entry_whole FAMILY_ADDRESS_SIZE (record_entry d).
Proof.
  intros [Hmin Hlen]. unfold entry_whole, record_entry. simpl.
  rewrite length_drop. unfold sizeof_family in *. lia.
Qed.

(** The loop consumes whole records one by one. *)
Lemma receive_loop_whole oom d rest l :
  record_ok FAMILY_ADDRESS_SIZE d ->
  oom (length l) = false ->
  receive_loop FAMILY_ADDRESS_SIZE oom (RecvData d :: rest) l =
  ((receive_loop FAMILY_ADDRESS_SIZE oom rest (l ++ [record_entry d])).1,
   CallRecvmsg :: (receive_loop FAMILY_ADDRESS_SIZE oom rest (l ++ [record_entry d])).2).
Proof.
  intros [Hmin Hlen] Hoom. cbn [receive_loop].
  assert (E1 : (Z.of_nat (length d) <? sizeof_family) = false) by lia.
  assert (E2 : (Z.of_nat (length d) =?
                sizeof_family + FAMILY_ADDRESS_SIZE (decode_family d)) = true) by lia.
  rewrite E1, E2. cbn [negb]. unfold add_local_address. rewrite Hoom.
  assert (E3 : (1 <? 0) = false) by done. rewrite E3.
  fold (record_entry d).
  by destruct (receive_loop FAMILY_ADDRESS_SIZE oom rest (l ++ [record_entry d])).
Qed.

Lemma receive_loop_prefix oom goods rest l :
  Forall (record_ok FAMILY_ADDRESS_SIZE) goods ->
  (forall i, (i < length goods)%nat -> oom (length l + i)%nat = false) ->
  receive_loop FAMILY_ADDRESS_SIZE oom (map RecvData goods ++ rest) l =
  ((receive_loop FAMILY_ADDRESS_SIZE oom rest (l ++ map record_entry goods)).1,
   replicate (length goods) CallRecvmsg ++
   (receive_loop FAMILY_ADDRESS_SIZE oom rest (l ++ map record_entry goods)).2).
Proof.
  intros Hok. revert l. induction Hok as [|d goods Hd Hok IH]; intros l Hoom.
  - simpl. rewrite app_nil_r. by destruct (receive_loop _ _ _ _).
  - cbn [map app]. rewrite receive_loop_whole; [|done|].
    + rewrite IH.
      * cbn [fst snd length replicate app]. by rewrite <- app_assoc.
      * intros i Hi. rewrite length_app. simpl.
        replace (length l + 1 + i)%nat with (length l + S i)%nat by lia.
        apply Hoom. simpl. lia.
    + specialize (Hoom 0%nat). rewrite Nat.add_0_r in Hoom. apply Hoom. simpl. lia.
Qed.

(** Whatever is received, a list the loop leaves with holds only whole
    entries. *)
Lemma receive_loop_entries oom events l l' calls :
  Forall (entry_whole FAMILY_ADDRESS_SIZE) l ->
  receive_loop FAMILY_ADDRESS_SIZE oom events l = (LoopBreak l', calls) ->
  Forall (entry_whole FAMILY_ADDRESS_SIZE) l' /\
  exists goods,
    l' = l ++ map record_entry goods /\
    Forall (record_ok FAMILY_ADDRESS_SIZE) goods /\
    map RecvData goods = take (length goods) events.
Proof.
  revert l calls. induction events as [|ev rest IH]; intros l calls Hl; cbn [receive_loop].
  - intros [= <- <-]. split; [done|]. exists []. by rewrite app_nil_r.
  - destruct ev as [e|d]; [done|].
    destruct (Z.of_nat (length d) <? sizeof_family) eqn:E1.
    { intros [= <- <-]. split; [done|]. exists []. by rewrite app_nil_r. }
    destruct (Z.of_nat (length d) =?
              sizeof_family + FAMILY_ADDRESS_SIZE (decode_family d)) eqn:E2;
      cbn [negb]; [|done].
    unfold add_local_address. destruct (oom (length l)); [done|].
    assert (E3 : (1 <? 0) = false) by done. rewrite E3.
    fold (record_entry d).
    destruct (receive_loop FAMILY_ADDRESS_SIZE oom rest (l ++ [record_entry d]))
      as [e calls'] eqn:Hrec.
    intros [= -> <-].
    assert (Hd : record_ok FAMILY_ADDRESS_SIZE d) by (split; lia).
    destruct (IH (l ++ [record_entry d]) calls') as (Hall & goods & Heq & Hok & Htake).
    { apply Forall_app. split; [done|]. constructor; [|done].
      by apply record_entry_whole. }
    { done. }
    split; [done|]. exists (d :: goods).
    split; [by rewrite Heq, <- app_assoc|].
    split; [by constructor|]. simpl. by rewrite Htake.
Qed.
End AddressFacts.

Section ReceiveLoop.
Variable FAMILY_ADDRESS_SIZE : Z -> Z.

Lemma machine_get_addresses_parent w machine :
  reaches_receive_loop w machine ->
  (machine_get_addresses FAMILY_ADDRESS_SIZE w machine).1 =
  match (receive_loop FAMILY_ADDRESS_SIZE (w_oom w) (w_recv w) []).1 with
  | LoopReturn n => Returned n None None
  | LoopBreak l =>
      if w_wait w <? 0 then Returned (- ECHILD) None (Some (w_wait w))
      else if negb (w_wait w =? EXIT_SUCCESS) then Returned (- ESHUTDOWN) None None
      else Returned (to_int (Z.of_nat (length l))) (Some l) None
  end.
Proof.
  intros (Hc & Hns & Hopen & Hpair & Hfork).
  unfold machine_get_addresses. rewrite Hc, Hns, Hpair.
  assert (E1 : (0 <? 0) = false) by done. rewrite E1.
  assert (E2 : (w_namespace_open w <? 0) = false) by lia. rewrite E2.
  assert (E3 : (w_namespace_fork w <? 0) = false) by lia. rewrite E3.
  assert (E4 : (w_namespace_fork w =? 0) = false) by lia. rewrite E4.
  destruct (receive_loop FAMILY_ADDRESS_SIZE (w_oom w) (w_recv w) []) as [[n|l] calls];
    cbn [fst]; [done|].
  destruct (w_wait w <? 0); [done|].
  by destruct (negb (w_wait w =? EXIT_SUCCESS)).
Qed.

(** C1 (amended).  In the parent's receive loop, after any number of
    whole records: a receive shorter than the family tag, the
    zero-length receive included, ends the loop normally with the
    entries gathered so far; a receive of at least a tag whose length is
    not exactly the tag size plus the address length of its family is a
    framing error ([-EIO]), and the call then returns no list at all; and
    every entry of a list the loop leaves with was made from one whole
    record, so it holds exactly the address bytes of its family (4 for
    IPv4, 16 for IPv6) and never part of a truncated record. *)
Theorem receive_loop_framing
    (oom : nat -> bool) (goods : list (list Byte.byte)) (rest : list recv_result)
    (w : world) (machine : Machine) :
  FAMILY_ADDRESS_SIZE AF_INET = 4 ->
  FAMILY_ADDRESS_SIZE AF_INET6 = 16 ->
  Forall (record_ok FAMILY_ADDRESS_SIZE) goods ->
  (forall i, (i < length goods)%nat -> oom i = false) ->
  let run := receive_loop FAMILY_ADDRESS_SIZE oom (map RecvData goods ++ rest) [] in
  ((rest = [] \/
    exists d rest', rest = RecvData d :: rest' /\ Z.of_nat (length d) < sizeof_family) ->
   run.1 = LoopBreak (map record_entry goods)) /\
  (forall d rest',
      rest = RecvData d :: rest' ->
      sizeof_family <= Z.of_nat (length d) ->
      Z.of_nat (length d) <> sizeof_family + FAMILY_ADDRESS_SIZE (decode_family d) ->
      run.1 = LoopReturn (- EIO) /\
      (reaches_receive_loop w machine ->
       w_oom w = oom -> w_recv w = map RecvData goods ++ rest ->
       (machine_get_addresses FAMILY_ADDRESS_SIZE w machine).1
       = Returned (- EIO) None None)) /\
  (forall l,
      run.1 = LoopBreak l ->
      Forall (fun a =>
                entry_whole FAMILY_ADDRESS_SIZE a /\
                (family a = AF_INET -> length (address a) = 4%nat) /\
                (family a = AF_INET6 -> length (address a) = 16%nat) /\
                exists d, RecvData d ∈ map RecvData goods ++ rest /\
                          record_ok FAMILY_ADDRESS_SIZE d /\ a = record_entry d) l).
Proof.
  intros H4 H6 Hok Hoom run. subst run.
  rewrite (receive_loop_prefix FAMILY_ADDRESS_SIZE oom goods rest []) by done.
  cbn [fst app].
  split; [|split].
  - intros [->|(d & rest' & -> & Hshort)]; [done|].
    cbn [receive_loop].
    assert (E : (Z.of_nat (length d) <? sizeof_family) = true) by lia.
    by rewrite E.
  - intros d rest' -> Hmin Hlen.
    assert (Hrun : (receive_loop FAMILY_ADDRESS_SIZE oom (RecvData d :: rest')
                      (map record_entry goods)).1 = LoopReturn (- EIO)).
    { cbn [receive_loop].
      assert (E1 : (Z.of_nat (length d) <? sizeof_family) = false) by lia.
      assert (E2 : (Z.of_nat (length d) =?
                    sizeof_family + FAMILY_ADDRESS_SIZE (decode_family d)) = false) by lia.
      by rewrite E1, E2. }
    split; [done|].
    intros Hpath Hw Hrecv.
    rewrite machine_get_addresses_parent by done.
    rewrite Hw, Hrecv.
    rewrite (receive_loop_prefix FAMILY_ADDRESS_SIZE oom goods _ []) by done.
    cbn [fst app]. by rewrite Hrun.
  - intros l Hl.
    destruct (receive_loop FAMILY_ADDRESS_SIZE oom rest (map record_entry goods))
      as [e calls] eqn:Hrun.
    cbn [fst] in Hl. subst e.
    apply (receive_loop_entries FAMILY_ADDRESS_SIZE) in Hrun
      as (_ & more & -> & Hmore & Htake).
    2:{ apply Forall_forall. intros a Ha.
        apply list_elem_of_fmap in Ha as (d & -> & Hd).
        apply record_entry_whole. by apply (proj1 (Forall_forall _ _) Hok). }
    assert (Hsub : forall d, d ∈ goods ++ more ->
               RecvData d ∈ map RecvData goods ++ rest /\ record_ok FAMILY_ADDRESS_SIZE d).
    { intros d Hd. apply elem_of_app in Hd as [Hd|Hd].
      - split; [|by apply (proj1 (Forall_forall _ _) Hok)].
        apply elem_of_app. left. by apply list_elem_of_fmap_2.
      - split; [|by apply (proj1 (Forall_forall _ _) Hmore)].
        apply elem_of_app. right.
        apply (list_elem_of_fmap_2 RecvData) in Hd.
        change (RecvData d ∈ map RecvData more) in Hd.
        rewrite Htake in Hd. by apply elem_of_take in Hd as (i & Hi & _);
          apply list_elem_of_lookup_2 in Hi. }
    rewrite <- map_app. apply Forall_forall. intros a Ha.
    apply list_elem_of_fmap in Ha as (d & -> & Hd).
    destruct (Hsub d Hd) as [Hin Hrec].
    pose proof (record_entry_whole FAMILY_ADDRESS_SIZE d Hrec) as Hwhole.
    split; [done|]. unfold entry_whole in Hwhole.
    split; [intros Hf; rewrite Hf, H4 in Hwhole; lia|].
    split; [intros Hf; rewrite Hf, H6 in Hwhole; lia|].
    by exists d.
Qed.
End ReceiveLoop.

Lemma record_10_0_0_5_ok : record_ok family_address_size record_10_0_0_5.
Proof. split; by vm_compute. Qed.

Lemma world_of_reaches events status :
  reaches_receive_loop (world_of events status) machine_container.
Proof. repeat split; by vm_compute. Qed.

Lemma receive_loop_framing_witness :
  (receive_loop family_address_size (fun _ => false)
     (map RecvData [record_10_0_0_5] ++ [RecvData []]) []).1
    = LoopBreak [mkLocalAddress 0 0 AF_INET [x0a; x00; x00; x05]] /\
  (machine_get_addresses family_address_size
     (world_of [RecvData record_10_0_0_5; RecvData record_truncated] 0)
     machine_container).1
    = Returned (- EIO) None None.
Proof.
  split.
  - refine (proj1 (receive_loop_framing family_address_size (fun _ => false)
                     [record_10_0_0_5] [RecvData []]
                     (world_of [] 0) machine_container
                     eq_refl eq_refl _ (fun _ _ => eq_refl)) _).
    + constructor; [exact record_10_0_0_5_ok | constructor].
    + right. exists [], []. split; [reflexivity | by vm_compute].
  - refine (proj2 (proj1 (proj2 (receive_loop_framing family_address_size (fun _ => false)
                     [record_10_0_0_5] [RecvData record_truncated]
                     (world_of [RecvData record_10_0_0_5; RecvData record_truncated] 0)
                     machine_container
                     eq_refl eq_refl _ (fun _ _ => eq_refl)))
                     record_truncated [] eq_refl _ _) _ eq_refl eq_refl).
    + constructor; [exact record_10_0_0_5_ok | constructor].
    + by vm_compute.
    + by vm_compute.
    + apply world_of_reaches.
Defined.

(** C1, as stated, fails.  A receive of three bytes is shorter than the
    family tag and is not the zero-length receive, yet it is no framing
    error: the loop ends normally and the call returns the list gathered
    before it. *)
Lemma receive_loop_framing_counterexample :
  0 < Z.of_nat (length record_short) < sizeof_family /\
  machine_get_addresses family_address_size
    (world_of [RecvData record_10_0_0_5; RecvData record_short] 0) machine_container
  = (Returned 1 (Some [mkLocalAddress 0 0 AF_INET [x0a; x00; x00; x05]]) None,
     [CallInSameNamespace; CallNamespaceOpen; CallSocketpair; CallNamespaceFork;
      CallRecvmsg; CallRecvmsg; CallWaitForTerminate]) /\
  machine_get_addresses family_address_size
    (world_of [RecvData record_short] 0) machine_container
  = (Returned 0 (Some []) None,
     [CallInSameNamespace; CallNamespaceOpen; CallSocketpair; CallNamespaceFork;
      CallRecvmsg; CallWaitForTerminate]).
Proof. split; [by vm_compute|]. split; reflexivity. Qed.

Section AddressErrors.
Variable FAMILY_ADDRESS_SIZE : Z -> Z.

(** C9.  For a container whose network namespace is the caller's own
    ([in_same_namespace] answers with a positive value), the call fails
    at once: it returns [-ENONET], which is none of the other error
    codes of this function, with [*reterr_errno] set, and the only call
    made is the namespace comparison, so no namespace is opened, no
    channel created and no worker forked. *)
Theorem machine_get_addresses_same_netns (w : world) (machine : Machine) :
  class machine = MACHINE_CONTAINER ->
  0 < w_in_same_namespace w ->
  machine_get_addresses FAMILY_ADDRESS_SIZE w machine
  = (Returned (- ENONET) None (Some (w_in_same_namespace w)), [CallInSameNamespace]) /\
  (- ENONET <> - EIO) /\ (- ENONET <> - ENOEXEC) /\ (- ENONET <> - ECHILD) /\
  (- ENONET <> - ESHUTDOWN) /\ (- ENONET <> - ENOTSUP) /\
  (forall c, c ∈ (machine_get_addresses FAMILY_ADDRESS_SIZE w machine).2 ->
             c <> CallNamespaceOpen /\ c <> CallSocketpair /\ c <> CallNamespaceFork).
Proof.
  intros Hc Hr.
  assert (Hcall : machine_get_addresses FAMILY_ADDRESS_SIZE w machine
    = (Returned (- ENONET) None (Some (w_in_same_namespace w)), [CallInSameNamespace])).
  { unfold machine_get_addresses. rewrite Hc.
    assert (E1 : (w_in_same_namespace w <? 0) = false) by lia.
    assert (E2 : (0 <? w_in_same_namespace w) = true) by lia.
    by rewrite E1, E2. }
  split; [done|].
  repeat (split; [done|]).
  rewrite Hcall. intros c Hin. apply list_elem_of_singleton in Hin as ->. done.
Qed.

(** C10.  Once the receive loop has ended normally with the list [l],
    the parent waits for the worker.  A failed wait fails the call with
    [-ECHILD] and the wait's error in [*reterr_errno]; a worker that
    exited with a nonzero status fails it with [-ESHUTDOWN], which is
    neither the framing error [-EIO] nor [-ECHILD] nor any other code
    this function produces itself; a worker that exited with success
    makes the call return the list (empty or not) and its length.  For a
    container, a list is returned only in that last case. *)
Theorem machine_get_addresses_wait (w : world) (machine : Machine)
    (l : list local_address) :
  reaches_receive_loop w machine ->
  (receive_loop FAMILY_ADDRESS_SIZE (w_oom w) (w_recv w) []).1 = LoopBreak l ->
  let result := (machine_get_addresses FAMILY_ADDRESS_SIZE w machine).1 in
  (w_wait w < 0 -> result = Returned (- ECHILD) None (Some (w_wait w))) /\
  (0 < w_wait w -> result = Returned (- ESHUTDOWN) None None) /\
  (w_wait w = EXIT_SUCCESS ->
   result = Returned (to_int (Z.of_nat (length l))) (Some l) None) /\
  (- ESHUTDOWN <> - EIO) /\ (- ESHUTDOWN <> - ECHILD) /\ (- ESHUTDOWN <> - ENOEXEC) /\
  (- ESHUTDOWN <> - ENONET) /\ (- ESHUTDOWN <> - ENOTSUP) /\ (- ECHILD <> - EIO) /\
  (forall ret l' e, result = Returned ret (Some l') e ->
                    w_wait w = EXIT_SUCCESS /\ l' = l /\ e = None) /\
  last (machine_get_addresses FAMILY_ADDRESS_SIZE w machine).2
  = Some CallWaitForTerminate.
Proof.
  intros Hpath Hloop result. subst result.
  rewrite machine_get_addresses_parent by done. rewrite Hloop.
  unfold EXIT_SUCCESS.
  split; [intros Hw; assert (E : (w_wait w <? 0) = true) by lia; by rewrite E|].
  split; [intros Hw; assert (E : (w_wait w <? 0) = false) by lia;
          assert (E' : (w_wait w =? 0) = false) by lia; by rewrite E, E'|].
  split; [intros Hw; by rewrite Hw|].
  repeat (split; [done|]).
  split.
  - intros ret l' e.
    destruct (w_wait w <? 0) eqn:E; [done|].
    destruct (w_wait w =? 0) eqn:E'; [|done].
    cbn [negb]. intros [= _ <- <-]. repeat split. lia.
  - destruct Hpath as (Hc & Hns & Hopen & Hpair & Hfork).
    unfold machine_get_addresses. rewrite Hc, Hns, Hpair.
    assert (E1 : (0 <? 0) = false) by done. rewrite E1.
    assert (E2 : (w_namespace_open w <? 0) = false) by lia. rewrite E2.
    assert (E3 : (w_namespace_fork w <? 0) = false) by lia. rewrite E3.
    assert (E4 : (w_namespace_fork w =? 0) = false) by lia. rewrite E4.
    destruct (receive_loop FAMILY_ADDRESS_SIZE (w_oom w) (w_recv w) [])
      as [e calls]. cbn [fst] in Hloop. subst e.
    assert (Hlast : forall pre : list sys_call,
               last (pre ++ calls ++ [CallWaitForTerminate]) = Some CallWaitForTerminate).
    { intros pre. by rewrite app_assoc, last_snoc. }
    destruct (w_wait w <? 0); [apply Hlast|].
    destruct (negb (w_wait w =? EXIT_SUCCESS)); apply Hlast.
Qed.
End AddressErrors.

Lemma machine_get_addresses_same_netns_witness :
  machine_get_addresses family_address_size world_same_netns machine_container
  = (Returned (- ENONET) None (Some 1), [CallInSameNamespace]).
Proof.
  apply (machine_get_addresses_same_netns family_address_size
           world_same_netns machine_container); [reflexivity | by vm_compute].
Defined.

Lemma machine_get_addresses_wait_witness :
  (machine_get_addresses family_address_size
     (world_of [RecvData record_10_0_0_5] 0) machine_container).1
  = Returned 1 (Some [mkLocalAddress 0 0 AF_INET [x0a; x00; x00; x05]]) None /\
  (machine_get_addresses family_address_size
     (world_of [RecvData record_10_0_0_5] 1) machine_container).1
  = Returned (- ESHUTDOWN) None None /\
  (machine_get_addresses family_address_size
     (world_of [RecvData record_10_0_0_5] (-3)) machine_container).1
  = Returned (- ECHILD) None (Some (-3)).
Proof.
  split; [|split].
  - refine (proj1 (proj2 (proj2 (machine_get_addresses_wait family_address_size
              (world_of [RecvData record_10_0_0_5] 0) machine_container
              [mkLocalAddress 0 0 AF_INET [x0a; x00; x00; x05]]
              (world_of_reaches _ _) eq_refl))) eq_refl).
  - refine (proj1 (proj2 (machine_get_addresses_wait family_address_size
              (world_of [RecvData record_10_0_0_5] 1) machine_container
              [mkLocalAddress 0 0 AF_INET [x0a; x00; x00; x05]]
              (world_of_reaches _ _) eq_refl)) _).
    by vm_compute.
  - refine (proj1 (machine_get_addresses_wait family_address_size
              (world_of [RecvData record_10_0_0_5] (-3)) machine_container
              [mkLocalAddress 0 0 AF_INET [x0a; x00; x00; x05]]
              (world_of_reaches _ _) eq_refl) _).
    by vm_compute.
Defined.

(** * Further properties of the code *)

(** ** The family tag on the wire *)

Lemma byte_val_of (v : Z) : byte_val (byte_of v) = v mod 256.
Proof.
  unfold byte_val, byte_of.
  assert (Hr : 0 <= v mod 256 < 256) by (apply Z.mod_pos_bound; lia).
  destruct (Byte.of_N (Z.to_N (v mod 256))) as [b|] eqn:E.
  - apply Byte.to_of_N in E. rewrite E. lia.
  - apply Byte.of_N_None_iff in E. lia.
Qed.

Lemma to_int_wrap (f : Z) :
  -2147483648 <= f < 2147483648 -> to_int (f mod 4294967296) = f.
Proof.
  intros Hf. unfold to_int. rewrite Z.mod_mod by lia.
  destruct (f mod 4294967296 <? 2147483648) eqn:E;
    [apply Z.ltb_lt in E | apply Z.ltb_ge in E];
    Z.div_mod_to_equations; lia.
Qed.

Lemma decode_encode_family (f : Z) (payload : list Byte.byte) :
  -2147483648 <= f < 2147483648 ->
  decode_family (encode_family f ++ payload) = f.
Proof.
  intros Hf. unfold encode_family, decode_family. cbn [app].
  rewrite !byte_val_of. rewrite <- (to_int_wrap f Hf) at 5.
  f_equal.
  assert (Hw : 0 <= f mod 4294967296 < 4294967296) by (apply Z.mod_pos_bound; lia).
  set (w := f mod 4294967296) in *.
  Z.div_mod_to_equations. lia.
Qed.

(** ** The worker and the parent *)

Section Wire.
Variable FAMILY_ADDRESS_SIZE : Z -> Z.

Lemma worker_record_whole a :
  sendable FAMILY_ADDRESS_SIZE a ->
  record_ok FAMILY_ADDRESS_SIZE (worker_record FAMILY_ADDRESS_SIZE a) /\
  record_entry (worker_record FAMILY_ADDRESS_SIZE a)
  = received_entry FAMILY_ADDRESS_SIZE a.
Proof.
  intros [Hfam Hsize].
  assert (Hdec : decode_family (worker_record FAMILY_ADDRESS_SIZE a) = family a)
    by (by apply decode_encode_family).
  assert (Hlen : Z.of_nat (length (worker_record FAMILY_ADDRESS_SIZE a))
                 = sizeof_family + FAMILY_ADDRESS_SIZE (family a)).
  { unfold worker_record. rewrite length_app, length_take. unfold sizeof_family.
    cbn [encode_family length]. lia. }
  split.
  - split; rewrite Hlen; [unfold sizeof_family; lia | by rewrite Hdec].
  - unfold record_entry, received_entry. rewrite Hdec. f_equal.
Qed.

Lemma worker_loop_all_written writev i l :
  (forall j, (j < length l)%nat -> 0 <= writev (i + j)%nat) ->
  worker_loop FAMILY_ADDRESS_SIZE writev i l
  = (EXIT_SUCCESS, map (worker_record FAMILY_ADDRESS_SIZE) l,
     replicate (length l) CallWritev).
Proof.
  revert i. induction l as [|a l IH]; intros i Hw; [done|].
  cbn [worker_loop].
  assert (E : (writev i <? 0) = false).
  { specialize (Hw 0%nat). rewrite Nat.add_0_r in Hw. simpl in Hw. lia. }
  rewrite E, IH; [done|].
  intros j Hj. replace (S i + j)%nat with (i + S j)%nat by lia.
  apply Hw. simpl. lia.
Qed.

Lemma worker_loop_first_failure writev i l k :
  (k < length l)%nat ->
  writev (i + k)%nat < 0 ->
  (forall j, (j < k)%nat -> 0 <= writev (i + j)%nat) ->
  worker_loop FAMILY_ADDRESS_SIZE writev i l
  = (EXIT_FAILURE, map (worker_record FAMILY_ADDRESS_SIZE) (take k l),
     replicate (S k) CallWritev).
Proof.
  revert i k. induction l as [|a l IH]; intros i k Hk Hfail Hok; [simpl in Hk; lia|].
  cbn [worker_loop]. destruct k as [|k].
  - rewrite Nat.add_0_r in Hfail.
    assert (E : (writev i <? 0) = true) by lia. by rewrite E.
  - assert (E : (writev i <? 0) = false).
    { specialize (Hok 0%nat). rewrite Nat.add_0_r in Hok. lia. }
    rewrite E, (IH (S i) k); [done|simpl in Hk; lia|..].
    + by replace (S i + k)%nat with (i + S k)%nat by lia.
    + intros j Hj. replace (S i + j)%nat with (i + S j)%nat by lia.
      apply Hok. lia.
Qed.




End Wire.

Section AddressRuns.
Variable FAMILY_ADDRESS_SIZE : Z -> Z.

Lemma machine_get_addresses_worker_run w machine :
  runs_worker w machine ->
  machine_get_addresses FAMILY_ADDRESS_SIZE w machine =
  match w_local_addresses w with
  | LocalAddressesError _ =>
      (Exited EXIT_FAILURE [],
       [CallInSameNamespace; CallNamespaceOpen; CallSocketpair; CallNamespaceFork;
        CallLocalAddresses])
  | LocalAddressesOk l =>
      (Exited (worker_loop FAMILY_ADDRESS_SIZE (w_writev w) 0 l).1.1
              (worker_loop FAMILY_ADDRESS_SIZE (w_writev w) 0 l).1.2,
       [CallInSameNamespace; CallNamespaceOpen; CallSocketpair; CallNamespaceFork;
        CallLocalAddresses] ++ (worker_loop FAMILY_ADDRESS_SIZE (w_writev w) 0 l).2)
  end.
Proof.
  intros (Hc & Hns & Hopen & Hpair & Hfork).
  unfold machine_get_addresses. rewrite Hc, Hns, Hpair, Hfork.
  assert (E1 : (0 <? 0) = false) by done. rewrite E1.
  assert (E2 : (w_namespace_open w <? 0) = false) by lia. rewrite E2.
  assert (E3 : (0 =? 0) = true) by done. rewrite E3.
  destruct (w_local_addresses w) as [e|l]; [done|].
  by destruct (worker_loop FAMILY_ADDRESS_SIZE (w_writev w) 0 l) as [[s sent] calls].
Qed.

(** X1.  The forked worker never returns to the caller.  It exits with
    failure and nothing written when the enumeration fails; it exits
    with success after one record per address when every [writev]
    succeeds; and at the first failing [writev] it exits with failure,
    having written exactly the records of the addresses before it. *)
Theorem machine_get_addresses_worker (w : world) (machine : Machine) :
  runs_worker w machine ->
  (forall e, w_local_addresses w = LocalAddressesError e ->
             (machine_get_addresses FAMILY_ADDRESS_SIZE w machine).1
             = Exited EXIT_FAILURE []) /\
  (forall l, w_local_addresses w = LocalAddressesOk l ->
     ((forall j, (j < length l)%nat -> 0 <= w_writev w j) ->
      (machine_get_addresses FAMILY_ADDRESS_SIZE w machine).1
      = Exited EXIT_SUCCESS (map (worker_record FAMILY_ADDRESS_SIZE) l)) /\
     (forall k, (k < length l)%nat -> w_writev w k < 0 ->
        (forall j, (j < k)%nat -> 0 <= w_writev w j) ->
        (machine_get_addresses FAMILY_ADDRESS_SIZE w machine).1
        = Exited EXIT_FAILURE (map (worker_record FAMILY_ADDRESS_SIZE) (take k l)))).
Proof.
  intros Hrun. rewrite machine_get_addresses_worker_run by done.
  split.
  - intros e He. by rewrite He.
  - intros l Hl. rewrite Hl. cbn [fst]. split.
    + intros Hw. by rewrite worker_loop_all_written.
    + intros k Hk Hfail Hok. by rewrite (worker_loop_first_failure _ _ _ _ k).
Qed.

(** X2.  What the worker writes, the parent reads back: when the
    parent receives the worker's records of the addresses [l] in order
    and the worker exits with success, the call returns one entry per
    address, in the same order, with the family and the address bytes of
    that family; interface index and scope are not transmitted and come
    back as zero.  The parent makes one receive per record and one more
    that finds the channel closed, then waits for the worker. *)
Theorem machine_get_addresses_round_trip
    (l : list local_address) (w : world) (machine : Machine) :
  Forall (sendable FAMILY_ADDRESS_SIZE) l ->
  reaches_receive_loop w machine ->
  w_recv w = map RecvData (map (worker_record FAMILY_ADDRESS_SIZE) l) ->
  (forall i, (i < length l)%nat -> w_oom w i = false) ->
  w_wait w = EXIT_SUCCESS ->
  machine_get_addresses FAMILY_ADDRESS_SIZE w machine
  = (Returned (to_int (Z.of_nat (length l)))
              (Some (map (received_entry FAMILY_ADDRESS_SIZE) l)) None,
     [CallInSameNamespace; CallNamespaceOpen; CallSocketpair; CallNamespaceFork] ++
     replicate (S (length l)) CallRecvmsg ++ [CallWaitForTerminate]).
Proof.
  intros Hl (Hc & Hns & Hopen & Hpair & Hfork) Hrecv Hoom Hwait.
  assert (Hok : Forall (record_ok FAMILY_ADDRESS_SIZE)
                       (map (worker_record FAMILY_ADDRESS_SIZE) l)).
  { apply Forall_forall. intros d Hd. apply list_elem_of_fmap in Hd as (a & -> & Ha).
    apply worker_record_whole. by apply (proj1 (Forall_forall _ _) Hl). }
  assert (Hentries : map record_entry (map (worker_record FAMILY_ADDRESS_SIZE) l)
                     = map (received_entry FAMILY_ADDRESS_SIZE) l).
  { rewrite map_map. apply map_ext_in. intros a Ha.
    apply worker_record_whole. apply (proj1 (Forall_forall _ _) Hl).
    by apply list_elem_of_In. }
  assert (Hloop : receive_loop FAMILY_ADDRESS_SIZE (w_oom w) (w_recv w) []
                  = (LoopBreak (map (received_entry FAMILY_ADDRESS_SIZE) l),
                     replicate (S (length l)) CallRecvmsg)).
  { rewrite Hrecv, <- (app_nil_r (map RecvData _)).
    rewrite (receive_loop_prefix FAMILY_ADDRESS_SIZE) by (rewrite ?length_map; done).
    cbn [receive_loop fst snd app]. rewrite Hentries, !length_map.
    f_equal. change [CallRecvmsg] with (replicate 1 CallRecvmsg).
    rewrite <- replicate_add. f_equal. lia. }
  unfold machine_get_addresses. rewrite Hc, Hns, Hpair, Hloop, Hwait.
  assert (E1 : (0 <? 0) = false) by done. rewrite E1.
  assert (E2 : (w_namespace_open w <? 0) = false) by lia. rewrite E2.
  assert (E3 : (w_namespace_fork w <? 0) = false) by lia. rewrite E3.
  assert (E4 : (w_namespace_fork w =? 0) = false) by lia. rewrite E4.
  unfold EXIT_SUCCESS. rewrite E1. cbn [Z.eqb negb]. by rewrite length_map.
Qed.

(** X3.  Once a receive ends the loop (a failed receive, or a datagram
    that is not one whole record), nothing that arrives after it is
    read: the outcome and the number of receives are those of the
    sequence cut right after that receive. *)
Theorem receive_loop_stops_at_terminator
    (oom : nat -> bool) (before later : list recv_result) (e : recv_result)
    (l : list local_address) :
  terminating FAMILY_ADDRESS_SIZE e ->
  receive_loop FAMILY_ADDRESS_SIZE oom (before ++ e :: later) l
  = receive_loop FAMILY_ADDRESS_SIZE oom (before ++ [e]) l.
Proof.
  intros Hterm. revert l.
  induction before as [|ev rest IH]; intros l; cbn [app receive_loop].
  - destruct e as [err|d]; [done|]. cbn [terminating] in Hterm.
    destruct (Z.of_nat (length d) <? sizeof_family) eqn:E1; [done|].
    destruct (Z.of_nat (length d) =?
              sizeof_family + FAMILY_ADDRESS_SIZE (decode_family d)) eqn:E2;
      [|done].
    exfalso. apply Hterm. split; lia.
  - destruct ev as [err|d]; [done|].
    destruct (Z.of_nat (length d) <? sizeof_family); [done|].
    destruct (negb _); [done|].
    destruct (add_local_address _ _ _ _ _ _) as [r l'].
    destruct (r <? 0); [done|]. by rewrite IH.
Qed.
End AddressRuns.


Section AddressContract.
Variable FAMILY_ADDRESS_SIZE : Z -> Z.




End AddressContract.

Section AddressCalls.
Variable FAMILY_ADDRESS_SIZE : Z -> Z.


End AddressCalls.

Lemma sample_addresses_sendable :
  Forall (sendable family_address_size) [address_v4; address_v6].
Proof. repeat constructor; by vm_compute. Qed.

Lemma world_worker_runs l writev : runs_worker (world_worker l writev) machine_container.
Proof. repeat split; by vm_compute. Qed.

Lemma machine_get_addresses_worker_witness :
  (machine_get_addresses family_address_size
     (world_worker [address_v4; address_v6] (fun _ => 0)) machine_container).1
  = Exited EXIT_SUCCESS
      [[x02; x00; x00; x00; x0a; x00; x00; x05];
       [x0a; x00; x00; x00; xfe; x80; x00; x00; x00; x00; x00; x00;
        x00; x00; x00; x00; x00; x00; x00; x01]] /\
  (machine_get_addresses family_address_size
     (world_worker [address_v4; address_v6] (fun i => if (i =? 1)%nat then -1 else 0))
     machine_container).1
  = Exited EXIT_FAILURE [[x02; x00; x00; x00; x0a; x00; x00; x05]].
Proof.
  split.
  - destruct (machine_get_addresses_worker family_address_size
                (world_worker [address_v4; address_v6] (fun _ => 0)) machine_container
                (world_worker_runs _ _)) as [_ Hok].
    destruct (Hok [address_v4; address_v6] eq_refl) as [Hall _].
    apply Hall. intros j _. simpl. lia.
  - destruct (machine_get_addresses_worker family_address_size
                (world_worker [address_v4; address_v6]
                   (fun i => if (i =? 1)%nat then -1 else 0)) machine_container
                (world_worker_runs _ _)) as [_ Hok].
    destruct (Hok [address_v4; address_v6] eq_refl) as [_ Hfail].
    apply (Hfail 1%nat).
    + simpl. lia.
    + simpl. lia.
    + intros j Hj. assert (j = 0%nat) as -> by lia. simpl. lia.
Defined.

Lemma machine_get_addresses_round_trip_witness :
  machine_get_addresses family_address_size
    (world_of (map RecvData (map (worker_record family_address_size)
                               [address_v4; address_v6])) 0)
    machine_container
  = (Returned 2
       (Some [mkLocalAddress 0 0 AF_INET [x0a; x00; x00; x05];
              mkLocalAddress 0 0 AF_INET6
                [xfe; x80; x00; x00; x00; x00; x00; x00;
                 x00; x00; x00; x00; x00; x00; x00; x01]])
       None,
     [CallInSameNamespace; CallNamespaceOpen; CallSocketpair; CallNamespaceFork;
      CallRecvmsg; CallRecvmsg; CallRecvmsg; CallWaitForTerminate]).
Proof.
  apply (machine_get_addresses_round_trip family_address_size
           [address_v4; address_v6]
           (world_of (map RecvData (map (worker_record family_address_size)
                                      [address_v4; address_v6])) 0)
           machine_container).
  - exact sample_addresses_sendable.
  - apply world_of_reaches.
  - reflexivity.
  - intros i _. reflexivity.
  - reflexivity.
Defined.

Lemma receive_loop_stops_at_terminator_witness :
  receive_loop family_address_size (fun _ => false)
    ([RecvData record_10_0_0_5] ++ RecvData record_truncated :: [RecvData record_10_0_0_5])
    []
  = (LoopReturn (- EIO), [CallRecvmsg; CallRecvmsg]).
Proof.
  rewrite (receive_loop_stops_at_terminator family_address_size (fun _ => false)
             [RecvData record_10_0_0_5] [RecvData record_10_0_0_5]
             (RecvData record_truncated) []).
  - reflexivity.
  - intros [_ Hlen]. vm_compute in Hlen. discriminate Hlen.
Defined.



(** ** More on the drain *)

Lemma machine_may_gc_flag b x drop :
  machine_may_gc (set_in_gc_queue b x) drop = machine_may_gc x drop.
Proof. done. Qed.

Lemma flat_map_agree {A B : Type} (f g : A -> list B) (l : list A) :
  (forall a, a ∈ l -> f a = g a) -> flat_map f l = flat_map g l.
Proof.
  induction l as [|a l IH]; intros Hfg; [done|]. simpl.
  rewrite (Hfg a) by left. rewrite IH; [done|].
  intros b Hb. apply Hfg. by right.
Qed.

Section GCDrain.
Variable stop_outcome : Machine -> MachineState * nat.

Lemma manager_gc_loop_events drop fuel m :
  (length (machine_gc_queue m) < fuel)%nat ->
  gc_queue_wf m ->
  exists m',
    manager_gc_loop stop_outcome fuel drop m
    = Some (m', gc_events_all stop_outcome drop m).
Proof.
  revert m. induction fuel as [|fuel IH]; intros m Hlen [Hnd Hlive]; [lia|].
  unfold gc_events_all. simpl.
  destruct (machine_gc_queue m) as [|p rest] eqn:Hqueue; [by exists m|].
  apply NoDup_cons in Hnd as [Hp Hnd].
  destruct (Hlive p) as [x Hx]; [left|].
  destruct (manager_gc_body_spec stop_outcome drop (set_machine_gc_queue rest m) p x Hx)
    as (m1 & Hbody & _ & Hother & Hq1 & _).
  rewrite Hbody. simpl in *.
  destruct (IH m1) as (m' & Hloop).
  { rewrite Hq1. lia. }
  { split; rewrite Hq1; [done|].
    intros q Hq. rewrite Hother by (intros ->; done). apply Hlive. by right. }
  rewrite Hloop. simpl. exists m'. do 2 f_equal.
  rewrite Hx. f_equal. unfold gc_events_all. rewrite Hq1.
  apply flat_map_agree. intros q Hq.
  rewrite Hother; [done|]. by intros ->.
Qed.

(** X6.  A drain handles the queue first in, first out, and each
    queued Machine exactly once: the events of the whole drain are the
    events of the single Machines, one block per Machine in queue
    order. *)
Theorem manager_gc_fifo (drop : bool) (m : Manager) :
  gc_queue_wf m ->
  exists m',
    manager_gc stop_outcome m drop = Some (m', gc_events_all stop_outcome drop m).
Proof. intros Hwf. apply manager_gc_loop_events; [lia | done]. Qed.

(** X7.  A drain restores the registry invariant of the queue and
    creates nothing.  Started from a queue without duplicates and
    dangling pointers whose flags agree with the queue, it completes,
    leaves the queue empty, leaves every live Machine with a cleared
    flag, keeps the deferred event source as it was, and every Machine
    live afterwards was live before. *)
Theorem manager_gc_restores_invariant (drop : bool) (m : Manager) :
  gc_queue_wf m ->
  gc_flags_consistent m ->
  exists m' ev,
    manager_gc stop_outcome m drop = Some (m', ev) /\
    machine_gc_queue m' = [] /\
    (forall p x, heap m' !! p = Some x -> in_gc_queue x = false) /\
    gc_queue_wf m' /\ gc_flags_consistent m' /\
    (forall p, is_Some (heap m' !! p) -> is_Some (heap m !! p)) /\
    deferred_gc_event_source m' = deferred_gc_event_source m.
Proof.
  intros Hwf Hflags.
  destruct (manager_gc_spec stop_outcome drop m Hwf)
    as (m' & ev & Hgc & Hq' & Hsrc & Hout & Hin & _ & _).
  exists m', ev. split; [done|]. split; [done|].
  assert (Hcleared : forall p x, heap m' !! p = Some x -> in_gc_queue x = false).
  { intros p x' Hx'.
    destruct (decide (p ∈ machine_gc_queue m)) as [Hq|Hq].
    - destruct Hwf as [_ Hlive]. destruct (Hlive p Hq) as [x Hx].
      rewrite (Hin p x Hq Hx) in Hx'. unfold gc_fate in Hx'.
      destruct (machine_may_gc _ drop); [done|].
      injection Hx' as <-. apply gc_decide_in_gc_queue.
    - rewrite Hout in Hx' by done.
      destruct (in_gc_queue x') eqn:E; [|done].
      exfalso. apply Hq. by apply (Hflags p x'). }
  split; [done|].
  split; [split; rewrite Hq'; [apply NoDup_nil_2 | intros p Hp; by apply elem_of_nil in Hp]|].
  split; [intros p x Hx Hflag; rewrite (Hcleared p x Hx) in Hflag; done|].
  split; [|done].
  intros p [x' Hx'].
  destruct (decide (p ∈ machine_gc_queue m)) as [Hq|Hq].
  - destruct Hwf as [_ Hlive]. by apply Hlive.
  - rewrite Hout in Hx' by done. by eexists.
Qed.

(** X8.  A queued Machine that may not be collected when it is popped
    is left alone: it is not stopped, finalized or freed, no event of
    the drain concerns it, its index entries stay, and afterwards it is
    the Machine it was with its queue flag cleared. *)
Theorem manager_gc_leaves_alone (drop : bool) (m : Manager) (p : ptr) (x : Machine) :
  gc_queue_wf m ->
  p ∈ machine_gc_queue m ->
  heap m !! p = Some x ->
  machine_may_gc x drop = false ->
  exists m' ev,
    manager_gc stop_outcome m drop = Some (m', ev) /\
    heap m' !! p = Some (set_in_gc_queue false x) /\
    index_keeps p m m' /\
    (forall e, e ∈ ev -> gc_event_machine e <> p).
Proof.
  intros Hwf Hq Hx Hmay.
  assert (Hstops : gc_stops drop x = false).
  { unfold gc_stops. by rewrite machine_may_gc_flag, Hmay. }
  assert (Hdec : gc_decide stop_outcome drop x = set_in_gc_queue false x).
  { unfold gc_decide. by rewrite Hstops. }
  assert (Hfate : gc_fate stop_outcome drop x = Some (set_in_gc_queue false x)).
  { unfold gc_fate. by rewrite Hdec, machine_may_gc_flag, Hmay. }
  destruct (manager_gc_spec stop_outcome drop m Hwf)
    as (m' & ev & Hgc & _ & _ & _ & Hin & Hev & Hidx).
  exists m', ev. split; [done|].
  assert (Hlive : heap m' !! p = Some (set_in_gc_queue false x)).
  { by rewrite (Hin p x). }
  split; [done|]. split; [apply Hidx; by rewrite Hlive|].
  intros e He Hp. apply Hev in He as (q & y & Hq' & Hy & He).
  pose proof (gc_events_of_machine stop_outcome drop y q e He) as Hm.
  rewrite Hp in Hm. subst q. assert (y = x) as -> by congruence.
  unfold gc_events_of in He.
  rewrite Hstops, Hdec, machine_may_gc_flag, Hmay in He.
  by apply elem_of_nil in He.
Qed.


(** X10.  A drain never touches a Machine that is not queued: the
    Machine is what it was, every index entry that named it still names
    it, and no event of the drain concerns it. *)
Theorem manager_gc_unqueued (drop : bool) (m : Manager) (p : ptr) (x : Machine) :
  gc_queue_wf m ->
  p ∉ machine_gc_queue m ->
  heap m !! p = Some x ->
  exists m' ev,
    manager_gc stop_outcome m drop = Some (m', ev) /\
    heap m' !! p = Some x /\
    index_keeps p m m' /\
    (forall e, e ∈ ev -> gc_event_machine e <> p).
Proof.
  intros Hwf Hq Hx.
  destruct (manager_gc_spec stop_outcome drop m Hwf)
    as (m' & ev & Hgc & _ & _ & Hout & _ & Hev & Hidx).
  exists m', ev. split; [done|].
  assert (Hlive : heap m' !! p = Some x) by (by rewrite Hout).
  split; [done|]. split; [apply Hidx; by rewrite Hlive|].
  intros e He Hp. apply Hev in He as (q & y & Hq' & Hy & He).
  pose proof (gc_events_of_machine stop_outcome drop y q e He) as Hm.
  rewrite Hp in Hm. by subst q.
Qed.
End GCDrain.

Lemma manager_queued_wf : gc_queue_wf manager_queued.
Proof.
  split.
  - apply NoDup_cons. split; [|apply NoDup_singleton].
    intros Hin. by apply list_elem_of_singleton in Hin.
  - intros q Hq. elem_of_cases Hq; subst; by eexists.
Qed.

Lemma manager_queued_flags : gc_flags_consistent manager_queued.
Proof.
  intros p x Hx Hflag. unfold manager_queued in *. cbn [heap machine_gc_queue] in *.
  destruct (decide (p = 1%positive)) as [->|H1]; [right; left|].
  destruct (decide (p = 2%positive)) as [->|H2]; [left|].
  rewrite !lookup_insert_ne in Hx by done.
  destruct (decide (p = 3%positive)) as [->|H3].
  - rewrite lookup_insert_eq in Hx. injection Hx as <-. discriminate Hflag.
  - rewrite lookup_insert_ne in Hx by done. by rewrite lookup_empty in Hx.
Qed.

Lemma manager_gc_fifo_witness :
  exists m',
    manager_gc stop_quiet manager_queued true
    = Some (m', [GcFinalize 2%positive; GcFree 2%positive;
                 GcStop 1%positive; GcFinalize 1%positive; GcFree 1%positive]).
Proof. exact (manager_gc_fifo stop_quiet true manager_queued manager_queued_wf). Defined.

Lemma manager_gc_restores_invariant_witness :
  exists m' ev,
    manager_gc stop_quiet manager_queued false = Some (m', ev) /\
    machine_gc_queue m' = [] /\ gc_flags_consistent m'.
Proof.
  destruct (manager_gc_restores_invariant stop_quiet false manager_queued
              manager_queued_wf manager_queued_flags)
    as (m' & ev & Hgc & Hq & _ & _ & Hflags & _).
  by exists m', ev.
Defined.

Lemma manager_gc_leaves_alone_witness :
  exists m' ev,
    manager_gc stop_quiet manager_queued false = Some (m', ev) /\
    heap m' !! 1%positive = Some (set_in_gc_queue false machine_opening).
Proof.
  destruct (manager_gc_leaves_alone stop_quiet false manager_queued 1%positive
              machine_opening manager_queued_wf)
    as (m' & ev & Hgc & Hlive & _).
  - right. left.
  - reflexivity.
  - reflexivity.
  - by exists m', ev.
Defined.


Lemma manager_gc_unqueued_witness :
  exists m' ev,
    manager_gc stop_quiet manager_queued true = Some (m', ev) /\
    heap m' !! 3%positive = Some machine_running /\
    hashmap_get streq (machines m') "zeta" = Some 3%positive.
Proof.
  destruct (manager_gc_unqueued stop_quiet true manager_queued 3%positive
              machine_running manager_queued_wf)
    as (m' & ev & Hgc & Hlive & (Hname & _) & _).
  - intros Hin. elem_of_cases Hin.
  - reflexivity.
  - exists m', ev. split; [done|]. split; [done|]. by apply Hname.
Defined.

(** ** More on the registry *)

(** X11.  [manager_enqueue_gc] only ever touches the deferred event
    source: heap, indices and queue stay as they are.  When the source
    cannot be allocated, or cannot be re-enabled, the manager is
    unchanged, so a later call tries again.  Once a source exists that is
    enabled for one run, a further call changes nothing, whatever the
    event loop answers: the source is registered once and only re-armed
    afterwards. *)
Theorem manager_enqueue_gc_rearm
    (r_enable r_defer r_priority r_description : Z) (m : Manager) :
  let m1 := manager_enqueue_gc r_enable r_defer r_priority r_description m in
  (heap m1 = heap m /\ machines m1 = machines m /\
   machines_by_leader m1 = machines_by_leader m /\
   machines_by_unit m1 = machines_by_unit m /\
   machine_gc_queue m1 = machine_gc_queue m) /\
  (deferred_gc_event_source m = None -> r_defer < 0 -> m1 = m) /\
  (is_Some (deferred_gc_event_source m) -> r_enable < 0 -> m1 = m) /\
  (forall s, deferred_gc_event_source m = Some s -> enabled s = SD_EVENT_ONESHOT ->
             m1 = m) /\
  (deferred_gc_event_source m = None -> 0 <= r_defer ->
   forall r_enable' r_defer' r_priority' r_description',
     manager_enqueue_gc r_enable' r_defer' r_priority' r_description' m1 = m1).
Proof.
  intros m1. subst m1. unfold manager_enqueue_gc.
  split; [|split; [|split; [|split]]].
  - destruct (deferred_gc_event_source m), (r_enable <? 0), (r_defer <? 0); done.
  - intros Hsrc Hr. rewrite Hsrc. assert (E : (r_defer <? 0) = true) by lia. by rewrite E.
  - intros [s Hsrc] Hr. rewrite Hsrc.
    assert (E : (r_enable <? 0) = true) by lia. by rewrite E.
  - intros s Hsrc Hen. rewrite Hsrc. destruct (r_enable <? 0); [done|].
    destruct m as [h ms ml mu q src]. simpl in *. subst src.
    destruct s as [cb en pr ds]. simpl in *. by subst en.
  - intros Hsrc Hr r_enable' r_defer' r_priority' r_description'. rewrite Hsrc.
    assert (E : (r_defer <? 0) = false) by lia. rewrite E. simpl.
    by destruct (r_enable' <? 0).
Qed.

Lemma manager_enqueue_gc_rearm_witness :
  manager_enqueue_gc (-1) 0 0 0 (manager_enqueue_gc 0 0 0 0 manager_opening)
  = manager_enqueue_gc 0 0 0 0 manager_opening /\
  manager_enqueue_gc 0 (-12) 0 0 manager_opening = manager_opening.
Proof.
  split.
  - destruct (manager_enqueue_gc_rearm 0 0 0 0 manager_opening)
      as (_ & _ & _ & _ & Hidem).
    apply Hidem; [reflexivity | lia].
  - destruct (manager_enqueue_gc_rearm 0 (-12) 0 0 manager_opening) as (_ & Hfail & _).
    apply Hfail; [reflexivity | lia].
Defined.

Section HashmapEntries.
Context {K : Type} (key_equal : K -> K -> bool).

Lemma hashmap_get_entry (h : list (K * ptr)) k v :
  hashmap_get key_equal h k = Some v -> exists k', (k', v) ∈ h /\ key_equal k k' = true.
Proof.
  induction h as [|[k0 v0] t IH]; simpl; [done|].
  destruct (key_equal k k0) eqn:E.
  - intros [= <-]. exists k0. split; [left | done].
  - intros Hg. destruct (IH Hg) as (k' & Hin & Hk). exists k'. split; [by right | done].
Qed.

Lemma hashmap_remove_value_entry (h : list (K * ptr)) k v e :
  e ∈ hashmap_remove_value key_equal h k v -> e ∈ h.
Proof.
  induction h as [|[k0 v0] t IH]; simpl; [done|].
  destruct (key_equal k k0).
  - destruct (decide (v0 = v)); [by right | done].
  - intros He. apply elem_of_cons in He as [->|He]; [left | right; auto].
Qed.

Lemma hashmap_remove_value_get_none (h : list (K * ptr)) k v k' :
  hashmap_get key_equal h k' = None ->
  hashmap_get key_equal (hashmap_remove_value key_equal h k v) k' = None.
Proof.
  induction h as [|[k0 v0] t IH]; simpl; [done|].
  destruct (key_equal k' k0) eqn:E'; [done|]. intros Hg.
  destruct (key_equal k k0).
  - destruct (decide (v0 = v)); [done|]. simpl. by rewrite E'.
  - simpl. rewrite E'. auto.
Qed.

Lemma hashmap_remove_value_wf (h : list (K * ptr)) k v :
  hashmap_wf key_equal h -> hashmap_wf key_equal (hashmap_remove_value key_equal h k v).
Proof.
  induction h as [|[k0 v0] t IH]; simpl; [done|].
  intros [Hfresh Hwf]. destruct (key_equal k k0).
  - destruct (decide (v0 = v)); [done|]. by split.
  - simpl. split; [by apply hashmap_remove_value_get_none | auto].
Qed.
End HashmapEntries.

Lemma hashmap_entry_get (h : list (string * ptr)) k v :
  hashmap_wf streq h -> (k, v) ∈ h -> hashmap_get streq h k = Some v.
Proof.
  induction h as [|[k0 v0] t IH]; simpl; intros Hwf Hin; [by apply elem_of_nil in Hin|].
  destruct Hwf as [Hfresh Hwf].
  apply elem_of_cons in Hin as [[= <- <-]|Hin]; [by rewrite streq_refl|].
  destruct (streq k k0) eqn:E; [|auto].
  apply bool_decide_eq_true in E. subst k0.
  rewrite (IH Hwf Hin) in Hfresh. done.
Qed.

(** In a well-formed index, removing the entry of [k] bound to [v] leaves
    no entry bound to [v] under the key [k]. *)
Lemma hashmap_remove_value_gone (h : list (string * ptr)) k v :
  hashmap_wf streq h -> (k, v) ∉ hashmap_remove_value streq h k v.
Proof.
  induction h as [|[k0 v0] t IH]; simpl; intros Hwf Hin; [by apply elem_of_nil in Hin|].
  destruct Hwf as [Hfresh Hwf].
  destruct (streq k k0) eqn:E.
  - apply bool_decide_eq_true in E. subst k0.
    destruct (decide (v0 = v)) as [->|Hne].
    + apply (hashmap_entry_get t k v Hwf) in Hin. congruence.
    + apply elem_of_cons in Hin as [[= ?]|Hin]; [done|].
      apply (hashmap_entry_get t k v Hwf) in Hin. congruence.
  - apply elem_of_cons in Hin as [[= <- <-]|Hin].
    + by rewrite streq_refl in E.
    + by apply IH.
Qed.

(** X12.  Registering a new name, when memory suffices, creates one
    Machine: it gets an address that was free, starts in state Opening
    with the class still undetermined, no leader, no unit and no
    reference, and it is found under its name.  Nothing else moves: every
    other name resolves as before, every other Machine is what it was,
    and the leader index, the unit index, the GC queue and the event
    source are untouched. *)
Theorem manager_add_machine_creates (m : Manager) (nm : string) (want_ret : bool) :
  hashmap_get streq (machines m) nm = None ->
  exists p m',
    manager_add_machine false false m nm want_ret = Some (0, store want_ret p, m') /\
    heap m !! p = None /\
    heap m' !! p = Some (mkMachine nm _MACHINE_CLASS_INVALID PIDREF_NULL None
                                   MACHINE_OPENING false 0 0 0 0 0%nat) /\
    hashmap_get streq (machines m') nm = Some p /\
    (forall nm', nm' <> nm ->
       hashmap_get streq (machines m') nm' = hashmap_get streq (machines m) nm') /\
    (forall q, q <> p -> heap m' !! q = heap m !! q) /\
    machines_by_leader m' = machines_by_leader m /\
    machines_by_unit m' = machines_by_unit m /\
    machine_gc_queue m' = machine_gc_queue m /\
    deferred_gc_event_source m' = deferred_gc_event_source m.
Proof.
  intros Hget. rewrite manager_add_machine_new by done. cbn [orb].
  eexists _, _. split; [reflexivity|]. cbn.
  split; [apply not_elem_of_dom, is_fresh|].
  split; [apply lookup_insert_eq|].
  split; [apply hashmap_get_snoc_new; [apply streq_refl | done]|].
  split; [|split; [|done]].
  - intros nm' Hne. apply hashmap_get_snoc_other.
    unfold streq. by apply bool_decide_eq_false.
  - intros q Hq. by apply lookup_insert_ne.
Qed.

Lemma manager_add_machine_creates_witness :
  exists p m',
    manager_add_machine false false manager_two "gamma" true = Some (0, Some p, m') /\
    hashmap_get streq (machines m') "gamma" = Some p /\
    hashmap_get streq (machines m') "alpha" = Some 1%positive.
Proof.
  destruct (manager_add_machine_creates manager_two "gamma" true eq_refl)
    as (p & m' & Hcall & _ & _ & Hnew & Hold & _).
  exists p, m'. split; [exact Hcall|]. split; [exact Hnew|].
  rewrite Hold; [reflexivity | discriminate].
Defined.

Lemma manager_add_machine_names_step
    (oom_new oom_link want_ret : bool) (m m' : Manager) (nm : string)
    (r : Z) (ret : option ptr) :
  names_consistent m ->
  manager_add_machine oom_new oom_link m nm want_ret = Some (r, ret, m') ->
  names_consistent m'.
Proof.
  intros [Hwf Hnames] Hcall.
  destruct (hashmap_get streq (machines m) nm) as [p|] eqn:Hget.
  - rewrite (manager_add_machine_existing m nm p) in Hcall by done.
    injection Hcall as <- <- <-. by split.
  - rewrite manager_add_machine_new in Hcall by done.
    destruct (oom_new || oom_link).
    + injection Hcall as <- <- <-. by split.
    + cbn zeta in Hcall. injection Hcall as <- <- <-.
      assert (Hfresh : heap m !! fresh (dom (heap m)) = None)
        by apply not_elem_of_dom, is_fresh.
      split; cbn.
      * by apply hashmap_wf_snoc.
      * intros k q Hin. apply elem_of_app in Hin as [Hin|Hin].
        -- destruct (Hnames k q Hin) as (x & Hx & Hname).
           exists x. split; [|done]. rewrite lookup_insert_ne; [done|].
           intros <-. congruence.
        -- apply list_elem_of_singleton in Hin as [= -> ->].
           eexists. split; [apply lookup_insert_eq | done].
Qed.

(** X13.  [manager_add_machine] keeps the invariant of the name index:
    if no name is entered twice and every entry points to a live Machine
    carrying that name, the same holds after the call, whether it finds
    the name, creates the Machine, or fails. *)
Theorem manager_add_machine_keeps_names
    (oom_new oom_link want_ret : bool) (m m' : Manager) (nm : string)
    (r : Z) (ret : option ptr) :
  names_consistent m ->
  manager_add_machine oom_new oom_link m nm want_ret = Some (r, ret, m') ->
  names_consistent m'.
Proof. apply manager_add_machine_names_step. Qed.

Lemma manager_two_names : names_consistent manager_two.
Proof.
  split; [by repeat split|].
  intros k p Hin. elem_of_cases Hin;
    match goal with H : (_, _) = _ |- _ => injection H as -> -> end;
    by eexists.
Qed.

Lemma manager_add_machine_keeps_names_witness :
  exists m',
    manager_add_machine false false manager_two "gamma" true
    = Some (0, Some 3%positive, m') /\
    names_consistent m'.
Proof.
  eexists. split; [vm_compute; reflexivity|].
  eapply (manager_add_machine_keeps_names false false true manager_two _ "gamma"
            0 (Some 3%positive) manager_two_names).
  vm_compute; reflexivity.
Defined.

(** X14.  Two different names never share a Machine.  In a registry
    whose name index is consistent, registering one name and then another
    gives two different Machines, and afterwards each name still resolves
    to its own. *)
Theorem manager_add_machine_distinct
    (oom1 oom2 oom3 oom4 : bool) (m m1 m2 : Manager) (nm1 nm2 : string)
    (p1 p2 : ptr) :
  names_consistent m ->
  nm1 <> nm2 ->
  manager_add_machine oom1 oom2 m nm1 true = Some (0, Some p1, m1) ->
  manager_add_machine oom3 oom4 m1 nm2 true = Some (0, Some p2, m2) ->
  p1 <> p2 /\
  hashmap_get streq (machines m2) nm1 = Some p1 /\
  hashmap_get streq (machines m2) nm2 = Some p2.
Proof.
  intros Hm Hne Hcall1 Hcall2.
  pose proof (manager_add_machine_names_step _ _ _ _ _ _ _ _ Hm Hcall1) as Hm1.
  pose proof (manager_add_machine_names_step _ _ _ _ _ _ _ _ Hm1 Hcall2) as Hm2.
  assert (Hfound : forall o o' mm nm p mm',
             manager_add_machine o o' mm nm true = Some (0, Some p, mm') ->
             hashmap_get streq (machines mm') nm = Some p /\
             forall nm', nm' <> nm ->
               hashmap_get streq (machines mm') nm' = hashmap_get streq (machines mm) nm').
  { intros o o' mm nm p mm' Hcall.
    destruct (hashmap_get streq (machines mm) nm) as [q|] eqn:Hget.
    - rewrite (manager_add_machine_existing mm nm q) in Hcall by done.
      injection Hcall as <- <-. by split.
    - rewrite manager_add_machine_new in Hcall by done.
      destruct (o || o'); [done|]. cbn zeta in Hcall. injection Hcall as <- <-.
      cbn. split; [apply hashmap_get_snoc_new; [apply streq_refl | done]|].
      intros nm' Hnm'. apply hashmap_get_snoc_other.
      unfold streq. by apply bool_decide_eq_false. }
  destruct (Hfound _ _ _ _ _ _ Hcall1) as [H1 _].
  destruct (Hfound _ _ _ _ _ _ Hcall2) as [H2 Hkeep].
  assert (H1' : hashmap_get streq (machines m2) nm1 = Some p1).
  { by rewrite Hkeep. }
  split; [|by split].
  intros <-.
  destruct Hm2 as [Hwf2 Hnames2].
  apply (hashmap_get_entry streq) in H1' as (k1 & Hin1 & Hk1).
  apply (hashmap_get_entry streq) in H2 as (k2 & Hin2 & Hk2).
  apply bool_decide_eq_true in Hk1, Hk2. subst k1 k2.
  destruct (Hnames2 _ _ Hin1) as (x1 & Hx1 & Hn1).
  destruct (Hnames2 _ _ Hin2) as (x2 & Hx2 & Hn2).
  congruence.
Qed.

Lemma manager_add_machine_distinct_witness :
  exists m1 m2,
    manager_add_machine false false manager_two "gamma" true
    = Some (0, Some 3%positive, m1) /\
    manager_add_machine false false m1 "delta" true = Some (0, Some 4%positive, m2) /\
    hashmap_get streq (machines m2) "gamma" = Some 3%positive /\
    hashmap_get streq (machines m2) "delta" = Some 4%positive.
Proof.
  eexists _, _. split; [vm_compute; reflexivity|]. split; [vm_compute; reflexivity|].
  eapply (manager_add_machine_distinct false false false false manager_two _ _
            "gamma" "delta" 3%positive 4%positive manager_two_names).
  - discriminate.
  - vm_compute; reflexivity.
  - vm_compute; reflexivity.
Defined.

Lemma machine_free_name_index m p x :
  heap m !! p = Some x ->
  exists m',
    machine_free m p = Some m' /\
    machines m' = hashmap_remove_value streq (machines m) (name x) p /\
    heap m' = delete p (heap m).
Proof.
  intros Hx. unfold machine_free. rewrite Hx. cbn [mbind option_bind].
  eexists. split; [reflexivity|].
  by destruct (in_gc_queue x), (unit x), (pidref_is_set (leader x)).
Qed.

Section GCNames.
Variable stop_outcome : Machine -> MachineState * nat.

Lemma gc_decide_name drop x : name (gc_decide stop_outcome drop x) = name x.
Proof. unfold gc_decide. by destruct (gc_stops drop x). Qed.

Lemma manager_gc_body_names drop m p x m1 ev :
  heap m !! p = Some x ->
  names_consistent m ->
  manager_gc_body stop_outcome drop m p = Some (m1, ev) ->
  names_consistent m1.
Proof.
  intros Hx [Hwf Hnames] Hbody.
  unfold manager_gc_body in Hbody. rewrite Hx in Hbody.
  cbn [mbind option_bind] in Hbody.
  fold (gc_stops drop x) in Hbody.
  assert (Hshape :
    (if gc_stops drop x
     then (machine_stop stop_outcome (set_in_gc_queue false x), [GcStop p])
     else (set_in_gc_queue false x, []))
    = (gc_decide stop_outcome drop x,
       if gc_stops drop x then [GcStop p] else [])).
  { unfold gc_decide. by destruct (gc_stops drop x). }
  rewrite Hshape in Hbody. clear Hshape.
  set (x2 := gc_decide stop_outcome drop x) in *.
  assert (Hname : name x2 = name x) by apply gc_decide_name.
  destruct (machine_may_gc x2 drop).
  - destruct (machine_free_name_index
                (machine_finalize (set_heap (<[p:=x2]> (heap m)) m) p) p x2)
      as (m' & Hfree & Hidx & Hheap).
    { apply lookup_insert_eq. }
    rewrite Hfree in Hbody. cbn [mbind option_bind] in Hbody.
    injection Hbody as <- _.
    split.
    + rewrite Hidx. cbn. by apply hashmap_remove_value_wf.
    + intros k q Hin. rewrite Hidx in Hin. cbn in Hin.
      assert (Hold : (k, q) ∈ machines m)
        by (by apply hashmap_remove_value_entry in Hin).
      destruct (Hnames k q Hold) as (y & Hy & Hk).
      assert (Hq : q <> p).
      { intros ->. assert (y = x) as -> by congruence.
        rewrite Hname in Hin. subst k.
        exact (hashmap_remove_value_gone (machines m) (name x) p Hwf Hin). }
      exists y. split; [|done].
      rewrite Hheap. cbn. by rewrite lookup_delete_ne, lookup_insert_ne.
  - injection Hbody as <- _. split; [done|].
    intros k q Hin. cbn in Hin. destruct (Hnames k q Hin) as (y & Hy & Hk). cbn.
    destruct (decide (q = p)) as [->|Hq].
    + exists x2. split; [apply lookup_insert_eq|]. congruence.
    + exists y. split; [by rewrite lookup_insert_ne | done].
Qed.

Lemma manager_gc_loop_names drop fuel m :
  (length (machine_gc_queue m) < fuel)%nat ->
  gc_queue_wf m ->
  names_consistent m ->
  exists m' ev,
    manager_gc_loop stop_outcome fuel drop m = Some (m', ev) /\
    names_consistent m'.
Proof.
  revert m. induction fuel as [|fuel IH]; intros m Hlen [Hnd Hlive] Hnames; [lia|].
  simpl. destruct (machine_gc_queue m) as [|p rest] eqn:Hqueue.
  - by exists m, [].
  - apply NoDup_cons in Hnd as [Hp Hnd].
    destruct (Hlive p) as [x Hx]; [left|].
    destruct (manager_gc_body_spec stop_outcome drop (set_machine_gc_queue rest m) p x Hx)
      as (m1 & Hbody & _ & Hother & Hq1 & _).
    assert (Hnames1 : names_consistent m1).
    { apply (manager_gc_body_names drop (set_machine_gc_queue rest m) p x m1
               (gc_events_of stop_outcome drop x p) Hx); [|exact Hbody].
      destruct Hnames as [Hwf Hn]. by split. }
    rewrite Hbody. simpl in *.
    destruct (IH m1) as (m' & ev' & Hloop & Hnames').
    { rewrite Hq1. lia. }
    { split; rewrite Hq1; [done|].
      intros q Hq. rewrite Hother by (intros ->; done). apply Hlive. by right. }
    { done. }
    rewrite Hloop. simpl. by eexists _, _.
Qed.

(** X15.  A drain leaves no dangling entry in the name index: if no
    name is entered twice and every entry points to a live Machine
    carrying that name, the same holds after the drain, whichever
    Machines it freed. *)
Theorem manager_gc_keeps_names (drop : bool) (m : Manager) :
  gc_queue_wf m ->
  names_consistent m ->
  exists m' ev,
    manager_gc stop_outcome m drop = Some (m', ev) /\
    names_consistent m'.
Proof. intros Hwf Hnames. apply manager_gc_loop_names; [lia | done | done]. Qed.
End GCNames.

Lemma manager_queued_names : names_consistent manager_queued.
Proof.
  split; [by repeat split|].
  intros k p Hin. elem_of_cases Hin;
    match goal with H : (_, _) = _ |- _ => injection H as -> -> end;
    by eexists.
Qed.

Lemma manager_gc_keeps_names_witness :
  exists m' ev,
    manager_gc stop_quiet manager_queued true = Some (m', ev) /\
    names_consistent m'.
Proof.
  exact (manager_gc_keeps_names stop_quiet true manager_queued
           manager_queued_wf manager_queued_names).
Defined.

Lemma find_machine_loop_cases owns (m : Manager) id (l : list (string * ptr)) :
  (forall e, e ∈ l -> is_Some (heap m !! e.2)) ->
  (find_machine_loop owns (heap m) id l = Some (c_false, None) /\
   forall e, e ∈ l -> owns_ret owns m id e.2 = Some 0) \/
  (exists pre k p post x,
      l = pre ++ (k, p) :: post /\
      (forall e, e ∈ pre -> owns_ret owns m id e.2 = Some 0) /\
      heap m !! p = Some x /\
      ((0 < (owns x id).1 /\
        find_machine_loop owns (heap m) id l = Some (c_true, Some (p, (owns x id).2))) \/
       ((owns x id).1 < 0 /\
        find_machine_loop owns (heap m) id l = Some ((owns x id).1, None)))).
Proof.
  induction l as [|[k p] t IH]; intros Hlive.
  - left. split; [done|]. intros e He. by apply elem_of_nil in He.
  - destruct (Hlive (k, p)) as [x Hx]; [left|]. cbn [snd] in Hx.
    destruct (Z.eq_dec (owns x id).1 0) as [Hz|Hnz].
    + assert (Hstep : find_machine_loop owns (heap m) id ((k, p) :: t)
                      = find_machine_loop owns (heap m) id t).
      { cbn [find_machine_loop]. rewrite Hx. cbn [mbind option_bind].
        destruct (owns x id) as [r c]. cbn [fst] in Hz. subst r. done. }
      assert (Hhead : owns_ret owns m id p = Some 0).
      { unfold owns_ret. rewrite Hx. cbn. by rewrite Hz. }
      rewrite Hstep.
      destruct IH as [[Hmiss Hall]|(pre & k' & p' & post & x' & -> & Hpre & Hx' & Hcase)].
      { intros e He. apply Hlive. by right. }
      * left. split; [done|]. intros e He. apply elem_of_cons in He as [->|He]; auto.
      * right. exists ((k, p) :: pre), k', p', post, x'.
        split; [done|]. split; [|by split].
        intros e He. apply elem_of_cons in He as [->|He]; auto.
    + right. exists [], k, p, t, x. split; [done|].
      split; [intros e He; by apply elem_of_nil in He|]. split; [done|].
      cbn [find_machine_loop]. rewrite Hx. cbn [mbind option_bind].
      destruct (owns x id) as [r c]. cbn [fst snd] in *.
      destruct (r <? 0) eqn:E; [right; split; [lia | done]|].
      left. split; [lia|]. assert (E' : (r =? 0) = false) by lia. by rewrite E'.
Qed.

(** X16.  Every outcome of the UID (and GID) scan, for a valid id and a
    registry whose entries are live.  The call always completes, and it
    ends in exactly one of three ways: a hit, returning true (1, never the
    raw answer of the ownership test) with a registered Machine that owns
    the id, no earlier Machine having answered anything but "no"; a miss,
    returning false with a [NULL] machine and the invalid-id sentinel,
    every Machine having answered "no"; or the negative answer of the
    first Machine that did not answer "no", with no output written. *)
Theorem manager_find_machine_for_uid_outcomes
    (owns : Machine -> Z -> Z * Z) (m : Manager) (id : Z)
    (want_machine want_internal : bool) :
  uid_is_valid id = true ->
  (forall e, e ∈ machines m -> is_Some (heap m !! e.2)) ->
  exists res,
    manager_find_machine_for_uid owns m id want_machine want_internal = Some res /\
    manager_find_machine_for_gid owns m id want_machine want_internal = Some res /\
    ((res = mkFind c_false (store want_machine None) (store want_internal UID_INVALID) /\
      forall e, e ∈ machines m -> owns_ret owns m id e.2 = Some 0) \/
     (exists pre k p post x,
         machines m = pre ++ (k, p) :: post /\
         (forall e, e ∈ pre -> owns_ret owns m id e.2 = Some 0) /\
         heap m !! p = Some x /\
         ((0 < (owns x id).1 /\
           res = mkFind c_true (store want_machine (Some p))
                        (store want_internal (owns x id).2)) \/
          ((owns x id).1 < 0 /\ res = mkFind (owns x id).1 None None)))).
Proof.
  intros Hvalid Hlive. rewrite manager_find_machine_for_gid_uid.
  unfold manager_find_machine_for_uid. rewrite Hvalid. cbn [negb].
  destruct (find_machine_loop_cases owns m id (machines m) Hlive)
    as [[Hmiss Hall]|(pre & k & p & post & x & Hm & Hpre & Hx & [[Hpos Hloop]|[Hneg Hloop]])].
  - rewrite Hmiss. cbn. eexists. split; [done|]. split; [done|]. by left.
  - rewrite Hloop. cbn. eexists. split; [done|]. split; [done|].
    right. exists pre, k, p, post, x. split; [done|]. split; [done|]. split; [done|].
    left. by split.
  - rewrite Hloop. cbn [mbind option_bind].
    assert (E : ((owns x id).1 <? 0) = true) by lia. rewrite E.
    eexists. split; [done|]. split; [done|].
    right. exists pre, k, p, post, x. split; [done|]. split; [done|]. split; [done|].
    right. by split.
Qed.

Lemma manager_two_live : forall e, e ∈ machines manager_two -> is_Some (heap manager_two !! e.2).
Proof. intros e He. elem_of_cases He; subst; by eexists. Qed.

Lemma manager_find_machine_for_uid_outcomes_witness :
  exists res,
    manager_find_machine_for_uid machine_owns_uid manager_two 100007 true true = Some res /\
    manager_find_machine_for_gid machine_owns_uid manager_two 100007 true true = Some res.
Proof.
  destruct (manager_find_machine_for_uid_outcomes machine_owns_uid manager_two 100007
              true true eq_refl manager_two_live) as (res & Hu & Hg & _).
  by exists res.
Defined.

Section OtherClasses.
Variable FAMILY_ADDRESS_SIZE : Z -> Z.

(** Outside the container class nothing is forked.  For the
    host the call is the direct enumeration: it returns the enumerated
    addresses unchanged together with their number (an empty list
    included), or the enumeration's error, and makes no other call.  For
    any other class it fails with [-ENOTSUP] without making any call and
    without writing any output. *)
Theorem machine_get_addresses_other_classes (w : world) (machine : Machine) :
  class machine <> MACHINE_CONTAINER ->
  machine_get_addresses FAMILY_ADDRESS_SIZE w machine =
  if decide (class machine = MACHINE_HOST)
  then (match w_local_addresses w with
        | LocalAddressesError e => Returned (- Z.pos e) None None
        | LocalAddressesOk l => Returned (Z.of_nat (length l)) (Some l) None
        end, [CallLocalAddresses])
  else (Returned (- ENOTSUP) None None, []).
Proof.
  intros Hc. unfold machine_get_addresses.
  destruct (class machine); try done; cbn.
  by destruct (w_local_addresses w).
Qed.
End OtherClasses.

Lemma machine_get_addresses_other_classes_witness :
  machine_get_addresses family_address_size
    (mkWorld (LocalAddressesOk [address_v4; address_v6]) 1 (-1) (Some 24%positive) (-1)
             (fun _ => -1) [] (fun _ => true) (-1))
    (mkMachine ".host" MACHINE_HOST (mkPidRef 1 None) None MACHINE_RUNNING
               false 0 0 0 0 0%nat)
  = (Returned 2 (Some [address_v4; address_v6]) None, [CallLocalAddresses]).
Proof.
  apply (machine_get_addresses_other_classes family_address_size
           (mkWorld (LocalAddressesOk [address_v4; address_v6]) 1 (-1) (Some 24%positive)
                    (-1) (fun _ => -1) [] (fun _ => true) (-1))
           (mkMachine ".host" MACHINE_HOST (mkPidRef 1 None) None MACHINE_RUNNING
                      false 0 0 0 0 0%nat)).
  discriminate.
Defined.

(** X17.  Registering a name never changes what a PID resolves to:
    whatever [manager_add_machine] does (find the name, create the
    Machine, or fail), [manager_get_machine_by_pid] answers afterwards
    exactly as before, since a Machine enters the leader and unit indices
    only once its leader and unit are known. *)
Theorem manager_add_machine_keeps_pid_lookup
    (oom_new oom_link want_ret : bool) (m m' : Manager) (nm : string)
    (r : Z) (ret : option ptr) (cg_pid_get_unit : Z -> Z * string) (p : Z) :
  manager_add_machine oom_new oom_link m nm want_ret = Some (r, ret, m') ->
  manager_get_machine_by_pid cg_pid_get_unit m' p
  = manager_get_machine_by_pid cg_pid_get_unit m p.
Proof.
  intros Hcall.
  assert (Hidx : machines_by_leader m' = machines_by_leader m /\
                 machines_by_unit m' = machines_by_unit m).
  { destruct (hashmap_get streq (machines m) nm) as [q|] eqn:Hget.
    - rewrite (manager_add_machine_existing m nm q) in Hcall by done.
      by injection Hcall as <- <- <-.
    - rewrite manager_add_machine_new in Hcall by done.
      destruct (oom_new || oom_link); [by injection Hcall as <- <- <-|].
      cbn zeta in Hcall. by injection Hcall as <- <- <-. }
  destruct Hidx as [Hl Hu].
  unfold manager_get_machine_by_pid. by rewrite Hl, Hu.
Qed.

Lemma manager_add_machine_keeps_pid_lookup_witness :
  exists m',
    manager_add_machine false false manager_two "gamma" true
    = Some (0, Some 3%positive, m') /\
    manager_get_machine_by_pid cg_sample m' 150
    = manager_get_machine_by_pid cg_sample manager_two 150.
Proof.
  eexists. split; [vm_compute; reflexivity|].
  eapply (manager_add_machine_keeps_pid_lookup false false true manager_two _ "gamma"
            0 (Some 3%positive) cg_sample 150).
  vm_compute; reflexivity.
Defined.
